(** * Path-integral quantum Monte Carlo annealing (piqmc/qmc.pyx)

    A shallow embedding of the two entry points of [qmc.pyx],
    [QuantumAnneal] and [QuantumAnneal_parallel], and the properties of
    the sweep they perform.

    Conventions of the embedding.
    - C [int] values are integers [Z] (no overflow is modelled).
    - C [float] and [np.float_t] values are real numbers [R], and
      [np.log] and [np.tanh] are [ln] and [tanh].  The rounding of the
      arithmetic and of the 32-bit variables [jval], [ediff], [jperp] and
      [temp] is not modelled, and infinities and NaN (the logarithm of 0)
      have no counterpart: the value of an energy difference or of [jperp]
      is the one of exact arithmetic, which the program approximates.
      libm's [exp] is [cexp], which is 0 from the underflow threshold of a
      double downwards and the real exponential above it.
    - A division of C numbers is compiled with Cython's check of the
      divisor: [x / 0] raises [ZeroDivisionError].  An exception ends the
      call, and the embedding reports it as [None].
    - The memoryviews [confs] (spins x slices) and [nbs]
      (spins x maxnb x 2) are lists of rows.  Both functions are compiled
      with [boundscheck(False)] and [wraparound(False)]: an index outside
      the array is undefined behaviour, which the embedding reports as
      [None].
    - [rng] is the injected generator; only [rng.permutation] is called.
      [crand] is libc's [rand()], whose hidden state is process-global.
      Both are state machines given as parameters. *)

From Stdlib Require Import Reals ZArith List Lia Lra Bool.
From Stdlib Require Import Zfloor Permutation.
Import ListNotations.

Local Open Scope Z_scope.
Local Open Scope R_scope.

(** ** Failure (out-of-bounds access, exception) *)

Definition bind {A B : Type} (m : option A) (f : A -> option B) : option B :=
  match m with
  | Some a => f a
  | None => None
  end.

Notation "x <- m ;; k" := (bind m (fun x => k))
  (at level 61, m at next level, right associativity).

(** A [for] loop whose body may fail, threading the loop-carried state. *)
Fixpoint for_each {S A : Type} (body : S -> A -> option S) (s : S) (l : list A)
  : option S :=
  match l with
  | [] => Some s
  | x :: l' => s' <- body s x ;; for_each body s' l'
  end.

(** [xrange(n)]: 0, 1, ..., n-1 (empty when [n <= 0]). *)
Definition xrange (n : Z) : list Z := map Z.of_nat (seq 0 (Z.to_nat n)).

(** ** Arrays *)

(** [a[i]] without wraparound. *)
Definition index {A : Type} (a : list A) (i : Z) : option A :=
  if (i <? 0)%Z then None else nth_error a (Z.to_nat i).

Fixpoint replace_nth {A : Type} (a : list A) (n : nat) (v : A) : list A :=
  match a, n with
  | [], _ => []
  | _ :: a', O => v :: a'
  | x :: a', S n' => x :: replace_nth a' n' v
  end.

(** [a[i] = v]. *)
Definition store {A : Type} (a : list A) (i : Z) (v : A) : option (list A) :=
  _ <- index a i ;; Some (replace_nth a (Z.to_nat i) v).

Definition conf : Type := list (list R).

(** [confs[i, j]] *)
Definition get2 (confs : conf) (i j : Z) : option R :=
  row <- index confs i ;; index row j.

(** [confs[i, j] = v] *)
Definition set2 (confs : conf) (i j : Z) (v : R) : option conf :=
  row <- index confs i ;;
  row' <- store row j v ;;
  store confs i row'.

(** [confs[i, j] *= -1] *)
Definition flip (confs : conf) (i j : Z) : option conf :=
  v <- get2 confs i j ;; set2 confs i j (v * -1).

(** The neighbour table: [nbs[s, si, 0]] is the neighbour's index stored as
    a float, [nbs[s, si, 1]] the coupling. *)
Definition nbtable : Type := list (list (R * R)).

(** [maxnb = nbs[0].shape[0]] (0 for a table without rows, which has no
    entry to read). *)
Definition maxnb_of (nbs : nbtable) : Z :=
  match nbs with
  | [] => 0%Z
  | row :: _ => Z.of_nat (length row)
  end.

(** [int(x)] of a float: truncation toward zero. *)
Definition int_of_float (x : R) : Z :=
  if Rle_dec 0 x then Zfloor x else Zceil x.

(** libc's [RAND_MAX] (glibc). *)
Definition RAND_MAX : Z := 2147483647.

(** ** Code shared by both sweeps *)

(** [cdef int tidx = 0]; no statement of either function assigns it. *)
Definition tidx : Z := 0.

(** Lines 96-104 and 193-201, "periodic boundaries": the slices read as
    [(tleft, tright)]. *)
Definition periodic_boundaries (slices islice : Z) : Z * Z :=
  if (tidx =? 0)%Z then (slices - 1, 1)%Z
  else if (tidx =? slices - 1)%Z then (slices - 2, 0)%Z
  else (islice - 1, islice + 1)%Z.

(** Lines 76 and 171, once the divisor [slices*temp] is known not to be 0
    (the bodies of the schedule loops test it).  The formula is meant for
    a quotient [field / (slices*temp)] that is positive, where the
    logarithm is finite. *)
Definition jperp_of (slices : Z) (temp field : R) : R :=
  -0.5 * IZR slices * temp * ln (tanh (field / (IZR slices * temp))).

(** The uniform draw [crand()/float(RAND_MAX)] for a value [k] of [crand()]. *)
Definition draw (k : Z) : R := IZR k / IZR RAND_MAX.

(** The largest argument at which libm's [exp] returns 0.0 in double
    precision, [ln (2^-1075)] (about -745.13). *)
Definition exp_underflow : R := -1075 * ln 2.

(** libm's [exp] on doubles, [cexp] in the source. *)
Definition cexp (x : R) : R :=
  if Rle_dec x exp_underflow then 0 else exp x.

(** Lines 111-114 and 208-211, for an energy difference [ediff] and the
    value [k] that [crand()] returns if it is called (and [temp] not 0
    where the division is reached). *)
Definition accept (ediff temp : R) (k : Z) : bool :=
  if Rgt_dec ediff 0 then true
  else if Rgt_dec (cexp (ediff / temp)) (draw k) then true
  else false.

(** One pass of the neighbour loop body, lines 85-94 (182-191 with the
    accumulator [ediffs[sidx]]). *)
Definition neighbor_term (confs : conf) (nbs : nbtable) (islice sidx : Z)
  (ediff : R) (si : Z) : option R :=
  row <- index nbs sidx ;;
  e <- index row si ;;
  let spinidx := int_of_float (fst e) in
  let jval := snd e in
  cur <- get2 confs sidx islice ;;
  if (spinidx =? sidx)%Z then Some (ediff + -2 * cur * jval)
  else
    other <- get2 confs spinidx islice ;;
    Some (ediff + -2 * cur * (jval * other)).

(** Lines 83-94: [for si in xrange(maxnb)]. *)
Definition neighbor_loop (confs : conf) (nbs : nbtable) (islice sidx : Z)
  (ediff : R) : option R :=
  for_each (neighbor_term confs nbs islice sidx) ediff (xrange (maxnb_of nbs)).

(** Lines 106-109: the two couplings to the neighbouring slices. *)
Definition trotter_terms (confs : conf) (slices islice sidx : Z) (jperp ediff : R)
  : option R :=
  let '(tleft, tright) := periodic_boundaries slices islice in
  cur <- get2 confs sidx islice ;;
  l <- get2 confs sidx tleft ;;
  let ediff := ediff + -2 * cur * (jperp * l) in
  cur' <- get2 confs sidx islice ;;
  r <- get2 confs sidx tright ;;
  Some (ediff + -2 * cur' * (jperp * r)).

(** Lines 83-109: the energy difference after one spin's evaluation, from
    the value [ediff] of the accumulator on entry. *)
Definition energy_diff (confs : conf) (nbs : nbtable) (slices islice sidx : Z)
  (jperp ediff : R) : option R :=
  e <- neighbor_loop confs nbs islice sidx ediff ;;
  trotter_terms confs slices islice sidx jperp e.

(** ** The serial sweep: [QuantumAnneal] *)

Section Serial.

(** The injected generator: its states and [rng.permutation]. *)
Variable G : Type.
Variable permutation : G -> list Z -> list Z * G.

(** libc's [rand()]: its hidden states and one call. *)
Variable C : Type.
Variable crand : C -> Z * C.

(** What the loops read and write: the array [confs], the local
    variables [ediff] and [sidx_shuff], and the two generators. *)
Record qa_state : Type := mk_qa {
  st_confs : conf;
  st_ediff : R;
  st_sidx_shuff : list Z;
  st_rng : G;
  st_crand : C
}.

(** Lines 82-114: the body of [for sidx in sidx_shuff].  The quotient
    [ediff/temp] of line 113 is computed before [crand()] is called, and the
    division raises when [temp] is 0. *)
Definition spin_body (nbs : nbtable) (slices : Z) (temp jperp : R)
  (islice : Z) (st : qa_state) (sidx : Z) : option qa_state :=
  ediff <- energy_diff (st_confs st) nbs slices islice sidx jperp (st_ediff st) ;;
  if Rgt_dec ediff 0 then
    confs' <- flip (st_confs st) sidx islice ;;
    Some (mk_qa confs' ediff (st_sidx_shuff st) (st_rng st) (st_crand st))
  else if Req_dec_T temp 0 then None
  else
    let (k, c') := crand (st_crand st) in
    if Rgt_dec (cexp (ediff / temp)) (draw k) then
      confs' <- flip (st_confs st) sidx islice ;;
      Some (mk_qa confs' ediff (st_sidx_shuff st) (st_rng st) c')
    else
      Some (mk_qa (st_confs st) ediff (st_sidx_shuff st) (st_rng st) c').

(** Lines 80-116: the body of [for islice in xrange(slices)]; the
    assignment [ediff = 0.0] of line 116 follows the spin loop. *)
Definition slice_body (nbs : nbtable) (slices : Z) (temp jperp : R)
  (st : qa_state) (islice : Z) : option qa_state :=
  st' <- for_each (spin_body nbs slices temp jperp islice) st (st_sidx_shuff st) ;;
  Some (mk_qa (st_confs st') 0 (st_sidx_shuff st') (st_rng st') (st_crand st')).

(** Lines 78-117: the body of [for step in xrange(mcsteps)]; line 117
    reshuffles after the slice loop. *)
Definition step_body (nbs : nbtable) (slices : Z) (temp jperp : R)
  (st : qa_state) (step : Z) : option qa_state :=
  st' <- for_each (slice_body nbs slices temp jperp) st (xrange slices) ;;
  let (shuff, g') := permutation (st_rng st') (st_sidx_shuff st') in
  Some (mk_qa (st_confs st') (st_ediff st') shuff g' (st_crand st')).

(** Lines 75-117: the body of [for ifield in xrange(sched.size)], for
    [field = sched[ifield]].  The division by [slices*temp] of line 76
    raises when the product is 0. *)
Definition field_body (nbs : nbtable) (mcsteps slices : Z) (temp : R)
  (st : qa_state) (field : R) : option qa_state :=
  if Req_dec_T (IZR slices * temp) 0 then None
  else
    let jperp := jperp_of slices temp field in
    for_each (step_body nbs slices temp jperp) st (xrange mcsteps).

(** The state at line 73, before the schedule loop. *)
Definition qa_init (nspins : Z) (confs : conf) (rng : G) (c : C) : qa_state :=
  let (shuff, g') := permutation rng (xrange nspins) in
  mk_qa confs 0 shuff g' c.

Definition QuantumAnneal (sched : list R) (mcsteps slices : Z) (temp : R)
  (nspins : Z) (confs : conf) (nbs : nbtable) (rng : G) (c : C)
  : option qa_state :=
  for_each (field_body nbs mcsteps slices temp)
    (qa_init nspins confs rng c) sched.

End Serial.

Arguments mk_qa {G C}.
Arguments st_confs {G C}.
Arguments st_ediff {G C}.
Arguments st_sidx_shuff {G C}.
Arguments st_rng {G C}.
Arguments st_crand {G C}.
Arguments spin_body {G C}.
Arguments slice_body {G C}.
Arguments step_body {G} permutation {C} crand.
Arguments field_body {G} permutation {C} crand.
Arguments qa_init {G} permutation {C}.
Arguments QuantumAnneal {G} permutation {C} crand.

(** ** The parallel sweep: [QuantumAnneal_parallel]

    The iterations of [prange(nspins)] are run one after the other, in
    the order given to [par_slice_body]; the entry point takes them in
    increasing order, which is the execution with one worker.  Interleaved
    executions of several workers are outside the embedding. *)

Section Parallel.

Variable C : Type.
Variable crand : C -> Z * C.

Record par_state : Type := mk_par {
  ps_confs : conf;
  ps_ediffs : list R;
  ps_crand : C
}.

(** Lines 179-211: the body of [for sidx in prange(nspins, ...)].  The
    slot [ediffs[sidx]] is read on entry and holds the energy difference
    once the terms are added; line 210 divides by [temp] as line 113 does. *)
Definition par_spin_body (nbs : nbtable) (slices : Z) (temp jperp : R)
  (islice : Z) (st : par_state) (sidx : Z) : option par_state :=
  e0 <- index (ps_ediffs st) sidx ;;
  ediff <- energy_diff (ps_confs st) nbs slices islice sidx jperp e0 ;;
  ediffs' <- store (ps_ediffs st) sidx ediff ;;
  if Rgt_dec ediff 0 then
    confs' <- flip (ps_confs st) sidx islice ;;
    Some (mk_par confs' ediffs' (ps_crand st))
  else if Req_dec_T temp 0 then None
  else
    let (k, c') := crand (ps_crand st) in
    if Rgt_dec (cexp (ediff / temp)) (draw k) then
      confs' <- flip (ps_confs st) sidx islice ;;
      Some (mk_par confs' ediffs' c')
    else
      Some (mk_par (ps_confs st) ediffs' c').

(** Lines 175-213: the spins of one slice in the order [order], then
    [ediffs.fill(0.0)]. *)
Definition par_slice_body (order : list Z) (nbs : nbtable) (slices : Z)
  (temp jperp : R) (st : par_state) (islice : Z) : option par_state :=
  st' <- for_each (par_spin_body nbs slices temp jperp islice) st order ;;
  Some (mk_par (ps_confs st') (map (fun _ => 0) (ps_ediffs st')) (ps_crand st')).

Definition par_step_body (nspins : Z) (nbs : nbtable) (slices : Z)
  (temp jperp : R) (st : par_state) (step : Z) : option par_state :=
  for_each (par_slice_body (xrange nspins) nbs slices temp jperp) st
    (xrange slices).

(** Lines 170-213; line 171 divides by [slices*temp] as line 76 does. *)
Definition par_field_body (nspins : Z) (nbs : nbtable) (mcsteps slices : Z)
  (temp : R) (st : par_state) (field : R) : option par_state :=
  if Req_dec_T (IZR slices * temp) 0 then None
  else
    let jperp := jperp_of slices temp field in
    for_each (par_step_body nspins nbs slices temp jperp) st (xrange mcsteps).

(** [np.zeros(nspins)] raises for a negative [nspins]; the call then
    ends before any loop. *)
Definition QuantumAnneal_parallel (sched : list R) (mcsteps slices : Z)
  (temp : R) (nspins : Z) (confs : conf) (nbs : nbtable) (nthreads : Z)
  (c : C) : option par_state :=
  if (nspins <? 0)%Z then None
  else
    for_each (par_field_body nspins nbs mcsteps slices temp)
      (mk_par confs (repeat 0 (Z.to_nat nspins)) c) sched.

End Parallel.

Arguments mk_par {C}.
Arguments ps_confs {C}.
Arguments ps_ediffs {C}.
Arguments ps_crand {C}.
Arguments par_spin_body {C}.
Arguments par_slice_body {C}.
Arguments par_step_body {C}.
Arguments par_field_body {C}.
Arguments QuantumAnneal_parallel {C}.

(** * Notions used in the statements *)

(** ** The intra-slice sum *)

(** The value of spin [i] in slice [j]; 0 outside the array. *)
Definition spin_at (confs : conf) (i j : Z) : R :=
  match get2 confs i j with
  | Some v => v
  | None => 0
  end.

(** The contribution of one entry of the neighbour list of spin [sidx] in
    exact arithmetic: linear for an entry that names the spin itself,
    quadratic otherwise. *)
Definition intra_slice_term (confs : conf) (islice sidx : Z) (e : R * R) : R :=
  if (int_of_float (fst e) =? sidx)%Z
  then -2 * spin_at confs sidx islice * snd e
  else -2 * spin_at confs sidx islice * snd e
         * spin_at confs (int_of_float (fst e)) islice.

Definition intra_slice_sum (confs : conf) (islice sidx : Z) (row : list (R * R)) : R :=
  fold_right (fun e acc => intra_slice_term confs islice sidx e + acc) 0 row.

(** ** Spin values and reachable configurations *)

Definition spin_value (v : R) : Prop := v = 1 \/ v = -1.

Definition spins_ok (confs : conf) : Prop := Forall (Forall spin_value) confs.

(** The configurations a call can go through: the one it is given, and the
    one left by any spin update of either sweep from a configuration already
    reached. *)
Inductive reachable (confs0 : conf) : conf -> Prop :=
| reach_start : reachable confs0 confs0
| reach_spin_body :
    forall (G C : Type) (crand : C -> Z * C) (nbs : nbtable) (slices : Z)
           (temp jperp : R) (islice : Z) (st st' : qa_state G C) (sidx : Z),
      reachable confs0 (st_confs st) ->
      spin_body crand nbs slices temp jperp islice st sidx = Some st' ->
      reachable confs0 (st_confs st')
| reach_par_spin_body :
    forall (C : Type) (crand : C -> Z * C) (nbs : nbtable) (slices : Z)
           (temp jperp : R) (islice : Z) (st st' : par_state C) (sidx : Z),
      reachable confs0 (ps_confs st) ->
      par_spin_body crand nbs slices temp jperp islice st sidx = Some st' ->
      reachable confs0 (ps_confs st').

(** The configuration of a serial or parallel state is reachable from
    [confs0]. *)
Definition reached {G C : Type} (confs0 : conf) (st : qa_state G C) : Prop :=
  reachable confs0 (st_confs st).

Definition par_reached {C : Type} (confs0 : conf) (st : par_state C) : Prop :=
  reachable confs0 (ps_confs st).

(** ** Well-formed arguments *)

Definition in_range (n : nat) (i : Z) : Prop := (0 <= i < Z.of_nat n)%Z.

(** [confs] has [N] rows of [P] entries. *)
Definition confs_shape (N P : nat) (confs : conf) : Prop :=
  length confs = N /\ Forall (fun row => length row = P) confs.

(** [nbs] has [N] rows of [maxnb] entries, each naming one of the [N] spins. *)
Definition nbs_shape (N : nat) (nbs : nbtable) : Prop :=
  length nbs = N /\
  Forall (fun row => Z.of_nat (length row) = maxnb_of nbs /\
                     Forall (fun e => in_range N (int_of_float (fst e))) row) nbs.

(** [rng.permutation] returns spin indices when given spin indices. *)
Definition keeps_in_range {G : Type} (N : nat)
  (permutation : G -> list Z -> list Z * G) : Prop :=
  forall g l, Forall (in_range N) l -> Forall (in_range N) (fst (permutation g l)).

(** The arrays keep their shape and the visiting order names spins. *)
Definition well_shaped {G C : Type} (N P : nat) (st : qa_state G C) : Prop :=
  confs_shape N P (st_confs st) /\ Forall (in_range N) (st_sidx_shuff st).

Definition par_well_shaped {C : Type} (N P : nat) (nspins : Z)
  (st : par_state C) : Prop :=
  confs_shape N P (ps_confs st) /\ length (ps_ediffs st) = Z.to_nat nspins.

(** ** A spin decided on its own energy difference *)

(** The checked division [ediff/temp] of lines 113 and 210 is reached when
    [ediff > 0.0] fails, and raises when [temp] is 0. *)
Definition division_raises (ediff temp : R) : bool :=
  if Rgt_dec ediff 0 then false
  else if Req_dec_T temp 0 then true
  else false.

(** The body of the parallel spin loop with the energy difference of the
    spin computed from zero, as the specification has it for both sweeps. *)
Definition par_spin_body_own {C : Type} (crand : C -> Z * C) (nbs : nbtable)
  (slices : Z) (temp jperp : R) (islice : Z) (st : par_state C) (sidx : Z)
  : option (par_state C) :=
  _ <- index (ps_ediffs st) sidx ;;
  ediff <- energy_diff (ps_confs st) nbs slices islice sidx jperp 0 ;;
  ediffs' <- store (ps_ediffs st) sidx ediff ;;
  if division_raises ediff temp then None
  else if accept ediff temp (fst (crand (ps_crand st))) then
    confs' <- flip (ps_confs st) sidx islice ;;
    Some (mk_par confs' ediffs'
            (if Rgt_dec ediff 0 then ps_crand st else snd (crand (ps_crand st))))
  else
    Some (mk_par (ps_confs st) ediffs'
            (if Rgt_dec ediff 0 then ps_crand st else snd (crand (ps_crand st)))).

(** ** Two runs compared *)

(** Two state machines answer alike from states related by [R]: they
    return the same value and leave related states. *)
Definition answers_alike {S1 S2 A B : Type} (R : S1 -> S2 -> Prop)
  (f1 : S1 -> A -> B * S1) (f2 : S2 -> A -> B * S2) : Prop :=
  forall s1 s2 a, R s1 s2 ->
    fst (f1 s1 a) = fst (f2 s2 a) /\ R (snd (f1 s1 a)) (snd (f2 s2 a)).

(** Two serial states agree on the arrays and locals, and their generators
    are related by [RG] and [RC]. *)
Definition same_state {G1 G2 C1 C2 : Type} (RG : G1 -> G2 -> Prop)
  (RC : C1 -> C2 -> Prop) (s1 : qa_state G1 C1) (s2 : qa_state G2 C2) : Prop :=
  st_confs s1 = st_confs s2 /\ st_ediff s1 = st_ediff s2 /\
  st_sidx_shuff s1 = st_sidx_shuff s2 /\
  RG (st_rng s1) (st_rng s2) /\ RC (st_crand s1) (st_crand s2).

Definition same_result {S1 S2 : Type} (R : S1 -> S2 -> Prop)
  (r1 : option S1) (r2 : option S2) : Prop :=
  match r1, r2 with
  | Some s1, Some s2 => R s1 s2
  | None, None => True
  | _, _ => False
  end.

(** ** Generators and arrays of the examples *)

(** An injected generator whose permutation keeps the order it is given;
    its state counts the calls. *)
Definition keep_order (g : nat) (l : list Z) : list Z * nat := (l, S g).

(** A [rand()] that returns the values of a list one after the other, and 0
    once the list is used up. *)
Definition replay (c : list Z) : Z * list Z := (hd 0%Z c, tl c).

(** A second implementation of [replay]: the state is the position in a
    fixed list of values. *)
Definition replay_at (stream : list Z) (n : nat) : Z * nat :=
  (nth n stream 0%Z, S n).

(** Two spins on two slices.  Spin 0 has the local field -2 and opposite
    values in the two slices; spin 1 has the local field 1 and the value +1
    in both. *)
Definition demo_confs : conf := [[1; -1]; [1; 1]].
Definition demo_nbs : nbtable := [[(0, -2)]; [(1, 1)]].

(** Values of [crand()]; as draws, about 0.84, 0.39, 0.78 and 0.80. *)
Definition demo_stream : list Z :=
  [1804289383; 846930886; 1681692777; 1714636915]%Z.

(** ** Notions of the further properties *)

(** Entry by entry, [b] holds the value of [a] or its opposite (so the two
    arrays have the same shape). *)
Definition sign_of (v w : R) : Prop := w = v \/ w = - v.

Definition signs_only (a b : conf) : Prop := Forall2 (Forall2 sign_of) a b.

(** Every spin reversed. *)
Definition negate (confs : conf) : conf := map (map Ropp) confs.

(** No entry of the neighbour table names the spin of its own row (no
    local field). *)
Definition no_self_entries (nbs : nbtable) : Prop :=
  forall s row e, index nbs s = Some row -> In e row -> int_of_float (fst e) <> s.

(** A generator instrumented with the number of calls made to it. *)
Definition counted {S A B : Type} (f : S -> A -> B * S) (sn : S * nat) (a : A)
  : B * (S * nat) :=
  (fst (f (fst sn) a), (snd (f (fst sn) a), Datatypes.S (snd sn))).

Definition counted_crand {C : Type} (crand : C -> Z * C) (cn : C * nat)
  : Z * (C * nat) :=
  (fst (crand (fst cn)), (snd (crand (fst cn)), Datatypes.S (snd cn))).

(** The parallel sweep with every spin decided on its own energy
    difference, the accumulators being written as the source writes them. *)
Definition par_slice_body_fresh {C : Type} (crand : C -> Z * C) (order : list Z)
  (nbs : nbtable) (slices : Z) (temp jperp : R) (st : par_state C) (islice : Z)
  : option (par_state C) :=
  st' <- for_each (par_spin_body_own crand nbs slices temp jperp islice) st order ;;
  Some (mk_par (ps_confs st') (map (fun _ => 0) (ps_ediffs st')) (ps_crand st')).

Definition QuantumAnneal_parallel_fresh {C : Type} (crand : C -> Z * C)
  (sched : list R) (mcsteps slices : Z) (temp : R) (nspins : Z) (confs : conf)
  (nbs : nbtable) (nthreads : Z) (c : C) : option (par_state C) :=
  if (nspins <? 0)%Z then None
  else
    for_each
      (fun st field =>
         if Req_dec_T (IZR slices * temp) 0 then None
         else
           for_each
             (fun st (_ : Z) =>
                for_each
                  (par_slice_body_fresh crand (xrange nspins) nbs slices temp
                     (jperp_of slices temp field))
                  st (xrange slices))
             st (xrange mcsteps))
      (mk_par confs (repeat 0 (Z.to_nat nspins)) c) sched.

(** Two serial states that differ by the reversal of every spin. *)
Definition reversed_states {G C : Type} (s1 s2 : qa_state G C) : Prop :=
  st_confs s2 = negate (st_confs s1) /\ st_ediff s2 = st_ediff s1 /\
  st_sidx_shuff s2 = st_sidx_shuff s1 /\ st_rng s2 = st_rng s1 /\
  st_crand s2 = st_crand s1.

(** The two spins of the example in an array with a third column that the
    sweep of two slices is not told about. *)
Definition wide_confs : conf := [[1; -1; 7]; [1; 1; 7]].

(** Two parallel states agree on the arrays, and their [crand]s are
    related by [RC]. *)
Definition par_same_state {C1 C2 : Type} (RC : C1 -> C2 -> Prop)
  (p1 : par_state C1) (p2 : par_state C2) : Prop :=
  ps_confs p1 = ps_confs p2 /\ ps_ediffs p1 = ps_ediffs p2 /\
  RC (ps_crand p1) (ps_crand p2).

(** Two spins coupled to each other, without local field. *)
Definition pair_nbs : nbtable := [[(1, 1)]; [(0, 1)]].

(** * Properties *)

(** ** Basic facts *)

Lemma bind_Some {A B : Type} (m : option A) (f : A -> option B) (b : B) :
  bind m f = Some b -> exists a, m = Some a /\ f a = Some b.
Proof.
  destruct m as [a|]; simpl; intros H; [exists a; auto | discriminate].
Qed.

(** An invariant of the body is an invariant of the loop. *)
Lemma for_each_invariant {S A : Type} (P : S -> Prop) (body : S -> A -> option S)
  (l : list A) :
  (forall s x s', P s -> body s x = Some s' -> P s') ->
  forall s s', P s -> for_each body s l = Some s' -> P s'.
Proof.
  intros Hbody; induction l as [|x l IH]; simpl; intros s s' Hs H.
  - injection H as <-; exact Hs.
  - apply bind_Some in H as (s1 & H1 & H2). eauto.
Qed.

Lemma index_of_nat {A : Type} (a : list A) (n : nat) :
  index a (Z.of_nat n) = nth_error a n.
Proof.
  unfold index. destruct (Z.ltb_spec (Z.of_nat n) 0); [lia|].
  now rewrite Nat2Z.id.
Qed.

Lemma index_Some {A : Type} (a : list A) (i : Z) (x : A) :
  index a i = Some x ->
  (0 <= i < Z.of_nat (length a))%Z /\ nth_error a (Z.to_nat i) = Some x.
Proof.
  unfold index. destruct (Z.ltb_spec i 0) as [Hneg|Hpos]; [discriminate|].
  intros Hnth. split; [|exact Hnth].
  assert (Hlt : (Z.to_nat i < length a)%nat)
    by (apply nth_error_Some; rewrite Hnth; discriminate).
  lia.
Qed.

Lemma index_in_range {A : Type} (a : list A) (i : Z) :
  (0 <= i < Z.of_nat (length a))%Z -> exists x, index a i = Some x.
Proof.
  intros Hi. unfold index. destruct (Z.ltb_spec i 0); [lia|].
  destruct (nth_error a (Z.to_nat i)) as [x|] eqn:E; [eauto|].
  apply nth_error_None in E. lia.
Qed.

Lemma index_out_of_range {A : Type} (a : list A) (i : Z) :
  (Z.of_nat (length a) <= i)%Z -> index a i = None.
Proof.
  intros Hi. unfold index. destruct (Z.ltb_spec i 0); [reflexivity|].
  apply nth_error_None. lia.
Qed.

Lemma int_of_float_IZR (z : Z) : int_of_float (IZR z) = z.
Proof.
  unfold int_of_float. destruct (Rle_dec 0 (IZR z)).
  - apply ZfloorZ.
  - unfold Zceil. rewrite <- opp_IZR, ZfloorZ. lia.
Qed.

(** Evaluation of the loops on explicit arrays. *)
Ltac run_arrays := repeat first
  [ rewrite int_of_float_IZR
  | progress cbn
  | progress unfold get2, set2, flip, store, index
  | progress (lazy beta iota delta [Pos.to_nat Pos.iter_op Nat.add Z.to_nat]) ].

(** ** The slices read by the Trotter coupling *)

Lemma periodic_boundaries_eq (slices islice : Z) :
  periodic_boundaries slices islice = ((slices - 1)%Z, 1%Z).
Proof. reflexivity. Qed.

Lemma trotter_terms_reads (confs : conf) (slices islice sidx : Z) (jperp ediff : R) :
  trotter_terms confs slices islice sidx jperp ediff =
    (cur <- get2 confs sidx islice ;;
     l <- get2 confs sidx (slices - 1) ;;
     r <- get2 confs sidx 1 ;;
     Some (ediff + -2 * cur * (jperp * l) + -2 * cur * (jperp * r))).
Proof.
  unfold trotter_terms, periodic_boundaries; simpl.
  destruct (get2 confs sidx islice); simpl; [|reflexivity].
  destruct (get2 confs sidx (slices - 1)); reflexivity.
Qed.

(** C1: the claim gives the left and right slices of slice [k] among [P]
    as [k-1] and [k+1] with wrap-around.  Both sweeps branch on [tidx],
    which stays 0, so they read slices [P-1] and [1] whatever the current
    slice is: for [P = 3] the interior slice 1 gets (2, 1) instead of
    (0, 2), the last slice 2 gets (2, 1) instead of (1, 0), and on the
    row [-1; 1; 1] the coupling of slice 1 adds [-4*jperp] where the
    neighbours 0 and 2 would add 0. *)
Theorem periodic_boundaries_keyed_on_tidx :
  (forall slices islice : Z,
     periodic_boundaries slices islice = ((slices - 1)%Z, 1%Z)) /\
  periodic_boundaries 3 1 = (2%Z, 1%Z) /\
  periodic_boundaries 3 1 <> (0%Z, 2%Z) /\
  periodic_boundaries 3 2 = (2%Z, 1%Z) /\
  periodic_boundaries 3 2 <> (1%Z, 0%Z) /\
  (forall jperp : R,
     trotter_terms [[-1; 1; 1]] 3 1 0 jperp 0 = Some (-4 * jperp) /\
     0 + -2 * 1 * (jperp * -1) + -2 * 1 * (jperp * 1) = 0).
Proof.
  repeat split; try reflexivity; try discriminate.
  - rewrite trotter_terms_reads. run_arrays. f_equal. ring.
  - ring.
Qed.

(** ** The intra-slice part of the energy difference

    In exact arithmetic the neighbour loop adds the terms of the row one
    after the other; this gives the value of the loop where the
    definedness of a sweep is proved. *)

Lemma get2_spin_at (confs : conf) (i j : Z) (v : R) :
  get2 confs i j = Some v -> spin_at confs i j = v.
Proof. unfold spin_at; now intros ->. Qed.

Lemma neighbor_term_spec (confs : conf) (nbs : nbtable) (islice sidx : Z)
  (row : list (R * R)) (e : R * R) (cur ediff : R) (si : Z) :
  index nbs sidx = Some row ->
  index row si = Some e ->
  get2 confs sidx islice = Some cur ->
  (int_of_float (fst e) <> sidx ->
   get2 confs (int_of_float (fst e)) islice <> None) ->
  neighbor_term confs nbs islice sidx ediff si =
    Some (ediff + intra_slice_term confs islice sidx e).
Proof.
  intros Hrow He Hcur Hnb. unfold neighbor_term, intra_slice_term.
  rewrite Hrow; simpl. rewrite He; simpl. rewrite Hcur; simpl.
  rewrite (get2_spin_at _ _ _ _ Hcur).
  destruct (Z.eqb_spec (int_of_float (fst e)) sidx) as [Heq|Hne]; [reflexivity|].
  specialize (Hnb Hne).
  destruct (get2 confs (int_of_float (fst e)) islice) as [other|] eqn:Ho;
    [|contradiction].
  simpl. rewrite (get2_spin_at _ _ _ _ Ho). f_equal. ring.
Qed.

(** The neighbour loop over the entries [rest] that follow the entries
    [done] of the row. *)
Lemma neighbor_loop_from (confs : conf) (nbs : nbtable) (islice sidx : Z) (cur : R)
  (rest done : list (R * R)) (ediff : R) :
  index nbs sidx = Some (done ++ rest) ->
  get2 confs sidx islice = Some cur ->
  (forall e, In e rest -> int_of_float (fst e) <> sidx ->
             get2 confs (int_of_float (fst e)) islice <> None) ->
  for_each (neighbor_term confs nbs islice sidx) ediff
    (map Z.of_nat (seq (length done) (length rest))) =
    Some (ediff + intra_slice_sum confs islice sidx rest).
Proof.
  revert done ediff; induction rest as [|e rest IH]; intros done ediff Hrow Hcur Hnb.
  - simpl. f_equal. ring.
  - simpl.
    rewrite (neighbor_term_spec confs nbs islice sidx (done ++ e :: rest) e cur);
      auto.
    + simpl.
      replace (S (length done)) with (length (done ++ [e]))
        by (rewrite length_app; simpl; lia).
      rewrite IH.
      * f_equal. ring.
      * now rewrite <- app_assoc.
      * exact Hcur.
      * intros e' He'. apply Hnb. now right.
    + rewrite index_of_nat, nth_error_app2 by lia.
      now rewrite Nat.sub_diag.
    + apply Hnb. now left.
Qed.

Lemma neighbor_loop_sum (confs : conf) (nbs : nbtable) (islice sidx : Z)
  (row : list (R * R)) (cur ediff : R) :
  index nbs sidx = Some row ->
  Z.of_nat (length row) = maxnb_of nbs ->
  get2 confs sidx islice = Some cur ->
  (forall e, In e row -> int_of_float (fst e) <> sidx ->
             get2 confs (int_of_float (fst e)) islice <> None) ->
  neighbor_loop confs nbs islice sidx ediff =
    Some (ediff + intra_slice_sum confs islice sidx row).
Proof.
  intros Hrow Hlen Hcur Hnb. unfold neighbor_loop, xrange.
  rewrite <- Hlen, Nat2Z.id.
  exact (neighbor_loop_from confs nbs islice sidx cur row [] ediff Hrow Hcur Hnb).
Qed.

(** ** Writes to the configuration *)

Lemma replace_nth_length {A : Type} (a : list A) (n : nat) (v : A) :
  length (replace_nth a n v) = length a.
Proof.
  revert n; induction a as [|x a IH]; intros [|n]; simpl; auto.
Qed.

Lemma nth_error_replace_nth {A : Type} (a : list A) (n m : nat) (v : A) :
  (n < length a)%nat ->
  nth_error (replace_nth a n v) m = if Nat.eqb m n then Some v else nth_error a m.
Proof.
  revert n m; induction a as [|x a IH]; intros [|n] [|m] Hn; simpl in *;
    try lia; auto.
  apply IH; lia.
Qed.

Lemma store_defined {A : Type} (a : list A) (i : Z) (v : A) :
  (0 <= i < Z.of_nat (length a))%Z ->
  store a i v = Some (replace_nth a (Z.to_nat i) v).
Proof.
  intros Hi. unfold store.
  destruct (index_in_range a i Hi) as [x ->]. reflexivity.
Qed.

Lemma get2_flip_defined (confs : conf) (i j : Z) (v : R) :
  get2 confs i j = Some v -> exists confs', flip confs i j = Some confs'.
Proof.
  unfold flip, set2, get2. intros H.
  apply bind_Some in H as (row & Hrow & Hv).
  rewrite Hrow; simpl. rewrite Hv; simpl.
  apply index_Some in Hrow as [Hi _]. apply index_Some in Hv as [Hj _].
  rewrite (store_defined row j _ Hj); simpl.
  rewrite (store_defined confs i _ Hi). eauto.
Qed.

(** ** The underflow threshold of [cexp] *)

(** A lower bound of [exp x] squares to a lower bound of [exp (2 * x)]. *)
Lemma exp_square_bound (c c' x : R) :
  0 < c -> c' <= c * c -> c <= exp x -> c' <= exp (2 * x).
Proof.
  intros Hc Hcc Hx. replace (2 * x) with (x + x) by lra. rewrite exp_plus.
  apply Rle_trans with (1 := Hcc). apply Rmult_le_compat; lra.
Qed.

(** [exp (746/1075) > (1 + 746/(1075*1024))^1024], by ten squarings of
    lower bounds. *)
Lemma exp_above_two : 2 < exp (746 / 1075).
Proof.
  assert (H : 1.0006776889534 <= exp ((746 / 1075) / 1024))
    by (pose proof (exp_ineq1_le ((746 / 1075) / 1024)); lra).
  apply (exp_square_bound _ 1.0013558371691) in H; [|lra|lra].
  apply (exp_square_bound _ 1.0027135126326) in H; [|lra|lra].
  apply (exp_square_bound _ 1.0054343884160) in H; [|lra|lra].
  apply (exp_square_bound _ 1.0108983094094) in H; [|lra|lra].
  apply (exp_square_bound _ 1.0219153919667) in H; [|lra|lra].
  apply (exp_square_bound _ 1.0443110683384) in H; [|lra|lra].
  apply (exp_square_bound _ 1.0905856074540) in H; [|lra|lra].
  apply (exp_square_bound _ 1.1893769671858) in H; [|lra|lra].
  apply (exp_square_bound _ 1.4146175700720) in H; [|lra|lra].
  apply (exp_square_bound _ 2.0011428695564) in H; [|lra|lra].
  replace
    (2 * (2 * (2 * (2 * (2 * (2 * (2 * (2 * (2 * (2 * (
       (746 / 1075) / 1024)))))))))))
    with (746 / 1075) in H by lra.
  lra.
Qed.

(** [exp (-745/1075) > (1 - 745/(1075*8192))^8192], by thirteen squarings. *)
Lemma exp_above_half : 1 / 2 < exp (- (745 / 1075)).
Proof.
  assert (H : 0.9999154024345 <= exp ((- (745 / 1075)) / 8192))
    by (pose proof (exp_ineq1_le ((- (745 / 1075)) / 8192)); lra).
  apply (exp_square_bound _ 0.9998308120257) in H; [|lra|lra].
  apply (exp_square_bound _ 0.9996616526759) in H; [|lra|lra].
  apply (exp_square_bound _ 0.9993234198307) in H; [|lra|lra].
  apply (exp_square_bound _ 0.9986472974221) in H; [|lra|lra].
  apply (exp_square_bound _ 0.9972964246484) in H; [|lra|lra].
  apply (exp_square_bound _ 0.9946001586164) in H; [|lra|lra].
  apply (exp_square_bound _ 0.9892294755197) in H; [|lra|lra].
  apply (exp_square_bound _ 0.9785749552369) in H; [|lra|lra].
  apply (exp_square_bound _ 0.9576089430169) in H; [|lra|lra].
  apply (exp_square_bound _ 0.9170148877459) in H; [|lra|lra].
  apply (exp_square_bound _ 0.8409163043476) in H; [|lra|lra].
  apply (exp_square_bound _ 0.7071402309176) in H; [|lra|lra].
  apply (exp_square_bound _ 0.5000473061821) in H; [|lra|lra].
  replace
    (2 * (2 * (2 * (2 * (2 * (2 * (2 * (2 * (2 * (2 * (2 * (2 * (2 * (
       (- (745 / 1075)) / 8192))))))))))))))
    with (- (745 / 1075)) in H by lra.
  lra.
Qed.

(** [745/1075 < ln 2 < 746/1075]: the threshold is about -745.13. *)
Lemma exp_underflow_range : -746 < exp_underflow < -745.
Proof.
  unfold exp_underflow.
  assert (Hlo : 745 / 1075 < ln 2).
  { rewrite <- (ln_exp (745 / 1075)). apply ln_increasing; [apply exp_pos|].
    pose proof exp_above_half as H. rewrite exp_Ropp in H.
    pose proof (exp_pos (745 / 1075)) as Hp.
    apply Rinv_lt_contravar in H; [|apply Rmult_lt_0_compat; [lra|now apply Rinv_0_lt_compat]].
    rewrite Rinv_inv in H. lra. }
  assert (Hhi : ln 2 < 746 / 1075).
  { rewrite <- (ln_exp (746 / 1075)). apply ln_increasing; [lra|].
    apply exp_above_two. }
  lra.
Qed.

Lemma exp_underflow_below : exp_underflow < -500.
Proof. pose proof exp_underflow_range. lra. Qed.

Lemma exp_underflow_above : -1075 < exp_underflow.
Proof. pose proof exp_underflow_range. lra. Qed.

(** ** The acceptance rule *)


Lemma cexp_above (x : R) : exp_underflow < x -> cexp x = exp x.
Proof.
  unfold cexp. intros H. destruct (Rle_dec x exp_underflow); [lra|reflexivity].
Qed.

Lemma cexp_nonneg (x : R) : 0 <= cexp x.
Proof.
  unfold cexp. destruct (Rle_dec x exp_underflow); [lra|].
  left. apply exp_pos.
Qed.

Lemma cexp_le_exp (x : R) : cexp x <= exp x.
Proof.
  unfold cexp. pose proof (exp_pos x).
  destruct (Rle_dec x exp_underflow); lra.
Qed.







Lemma division_raises_false (ediff temp : R) :
  temp <> 0 -> division_raises ediff temp = false.
Proof.
  intros Ht. unfold division_raises.
  destruct (Rgt_dec ediff 0); [reflexivity|].
  destruct (Req_dec_T temp 0); [contradiction|reflexivity].
Qed.

(** The spin body in terms of [accept]: [crand()] is called only when the
    energy difference is not positive, after the division. *)
Lemma spin_body_accept {G C : Type} (crand : C -> Z * C) (nbs : nbtable)
  (slices : Z) (temp jperp : R) (islice : Z) (st : qa_state G C) (sidx : Z) :
  spin_body crand nbs slices temp jperp islice st sidx =
    (ediff <- energy_diff (st_confs st) nbs slices islice sidx jperp (st_ediff st) ;;
     let c' := if Rgt_dec ediff 0 then st_crand st else snd (crand (st_crand st)) in
     if division_raises ediff temp then None
     else if accept ediff temp (fst (crand (st_crand st))) then
       confs' <- flip (st_confs st) sidx islice ;;
       Some (mk_qa confs' ediff (st_sidx_shuff st) (st_rng st) c')
     else
       Some (mk_qa (st_confs st) ediff (st_sidx_shuff st) (st_rng st) c')).
Proof.
  unfold spin_body, accept, division_raises.
  destruct (energy_diff _ _ _ _ _ _ _) as [ediff|]; simpl; [|reflexivity].
  destruct (Rgt_dec ediff 0); [reflexivity|].
  destruct (Req_dec_T temp 0); [reflexivity|].
  destruct (crand (st_crand st)) as [k c']; simpl.
  destruct (Rgt_dec (cexp (ediff / temp)) (draw k)); reflexivity.
Qed.

Lemma par_spin_body_accept {C : Type} (crand : C -> Z * C) (nbs : nbtable)
  (slices : Z) (temp jperp : R) (islice : Z) (st : par_state C) (sidx : Z) :
  par_spin_body crand nbs slices temp jperp islice st sidx =
    (e0 <- index (ps_ediffs st) sidx ;;
     ediff <- energy_diff (ps_confs st) nbs slices islice sidx jperp e0 ;;
     ediffs' <- store (ps_ediffs st) sidx ediff ;;
     let c' := if Rgt_dec ediff 0 then ps_crand st else snd (crand (ps_crand st)) in
     if division_raises ediff temp then None
     else if accept ediff temp (fst (crand (ps_crand st))) then
       confs' <- flip (ps_confs st) sidx islice ;;
       Some (mk_par confs' ediffs' c')
     else
       Some (mk_par (ps_confs st) ediffs' c')).
Proof.
  unfold par_spin_body, accept, division_raises.
  destruct (index _ _) as [e0|]; simpl; [|reflexivity].
  destruct (energy_diff _ _ _ _ _ _ _) as [ediff|]; simpl; [|reflexivity].
  destruct (store _ _ _) as [ediffs'|]; simpl; [|reflexivity].
  destruct (Rgt_dec ediff 0); [reflexivity|].
  destruct (Req_dec_T temp 0); [reflexivity|].
  destruct (crand (ps_crand st)) as [k c']; simpl.
  destruct (Rgt_dec (cexp (ediff / temp)) (draw k)); reflexivity.
Qed.

Lemma energy_diff_reads_current (confs : conf) (nbs : nbtable)
  (slices islice sidx : Z) (jperp e0 ediff : R) :
  energy_diff confs nbs slices islice sidx jperp e0 = Some ediff ->
  exists cur, get2 confs sidx islice = Some cur.
Proof.
  unfold energy_diff. intros H.
  apply bind_Some in H as (e & _ & H). rewrite trotter_terms_reads in H.
  apply bind_Some in H as (cur & Hcur & _). eauto.
Qed.

(** The accumulator a spin leaves is its energy difference computed from
    the accumulator it found: the serial spin loop hands it on to the next
    spin as it is. *)
Lemma spin_body_ediff {G C : Type} (crand : C -> Z * C) (nbs : nbtable)
  (slices : Z) (temp jperp : R) (islice : Z) (st st' : qa_state G C) (sidx : Z) :
  spin_body crand nbs slices temp jperp islice st sidx = Some st' ->
  energy_diff (st_confs st) nbs slices islice sidx jperp (st_ediff st)
    = Some (st_ediff st').
Proof.
  rewrite spin_body_accept. intros H.
  apply bind_Some in H as (ediff & -> & H). simpl in H.
  destruct (division_raises _ _); [discriminate|].
  destruct (accept _ _ _).
  - apply bind_Some in H as (confs' & _ & [= <-]). reflexivity.
  - injection H as <-. reflexivity.
Qed.

Lemma flip_get2_same (confs confs' : conf) (i j : Z) (v : R) :
  get2 confs i j = Some v ->
  flip confs i j = Some confs' ->
  get2 confs' i j = Some (v * -1).
Proof.
  unfold flip, set2. intros Hget. rewrite Hget; simpl.
  unfold get2 in *. apply bind_Some in Hget as (row & Hrow & Hv).
  rewrite Hrow; simpl.
  apply index_Some in Hrow as [Hi Hrow']. apply index_Some in Hv as [Hj Hv'].
  rewrite (store_defined row j _ Hj); simpl.
  rewrite (store_defined confs i _ Hi). intros [= <-].
  unfold index.
  destruct (Z.ltb_spec i 0) as [|_]; [lia|]. destruct (Z.ltb_spec j 0) as [|_]; [lia|].
  rewrite nth_error_replace_nth, Nat.eqb_refl by lia. simpl.
  destruct (Z.ltb_spec j 0) as [|_]; [lia|].
  rewrite nth_error_replace_nth, Nat.eqb_refl by lia. reflexivity.
Qed.



(** ** The schedule loop *)

(** C9: with an empty schedule the serial call returns with the
    configuration it was given, and so does the parallel call (which raises
    before any loop when [nspins] is negative). *)
Theorem empty_schedule_keeps_confs {G C : Type}
  (permutation : G -> list Z -> list Z * G) (crand : C -> Z * C)
  (mcsteps slices : Z) (temp : R) (nspins : Z) (confs : conf) (nbs : nbtable)
  (rng : G) (nthreads : Z) (c : C) :
  (exists st,
     QuantumAnneal permutation crand [] mcsteps slices temp nspins confs nbs rng c
       = Some st /\ st_confs st = confs) /\
  match QuantumAnneal_parallel crand [] mcsteps slices temp nspins confs nbs
          nthreads c with
  | Some st => ps_confs st = confs
  | None => (nspins < 0)%Z
  end.
Proof.
  split.
  - unfold QuantumAnneal, qa_init; simpl.
    destruct (permutation rng (xrange nspins)) as [shuff g']. eauto.
  - unfold QuantumAnneal_parallel.
    destruct (Z.ltb_spec nspins 0); simpl; auto.
Qed.

(** C10: the serial call asks [rng] for a permutation of
    [range(nspins)] before the schedule loop: the loop starts from the
    generator state that this one call leaves, and with an empty schedule
    that state is the final one, while the configuration, the accumulator
    and the state of [crand] are the ones on entry. *)
Theorem one_permutation_before_schedule {G C : Type}
  (permutation : G -> list Z -> list Z * G) (crand : C -> Z * C)
  (mcsteps slices : Z) (temp : R) (nspins : Z) (confs : conf) (nbs : nbtable)
  (rng : G) (c : C) :
  (forall sched,
     QuantumAnneal permutation crand sched mcsteps slices temp nspins confs nbs rng c =
       for_each (field_body permutation crand nbs mcsteps slices temp)
         (mk_qa confs 0 (fst (permutation rng (xrange nspins)))
            (snd (permutation rng (xrange nspins))) c) sched) /\
  QuantumAnneal permutation crand [] mcsteps slices temp nspins confs nbs rng c =
    Some (mk_qa confs 0 (fst (permutation rng (xrange nspins)))
            (snd (permutation rng (xrange nspins))) c).
Proof.
  unfold QuantumAnneal, qa_init.
  destruct (permutation rng (xrange nspins)) as [shuff g']; simpl. auto.
Qed.

Example one_permutation_counted :
  option_map st_rng
    (QuantumAnneal keep_order replay [] 5 2 1 2 [[1; 1]; [-1; -1]]
       [[(1, 1)]; [(0, 1)]] 0%nat []) = Some 1%nat.
Proof. reflexivity. Qed.

(** ** The configuration holds only +1 and -1 *)

Lemma spin_value_flip (v : R) : spin_value v -> spin_value (v * -1).
Proof. unfold spin_value. intros [-> | ->]; [right|left]; ring. Qed.

Lemma Forall_index {A : Type} (P : A -> Prop) (a : list A) (i : Z) (x : A) :
  Forall P a -> index a i = Some x -> P x.
Proof.
  intros Ha Hi. apply index_Some in Hi as [_ Hi].
  rewrite Forall_forall in Ha. eauto using nth_error_In.
Qed.

Lemma Forall_replace_nth {A : Type} (P : A -> Prop) (a : list A) (n : nat) (v : A) :
  Forall P a -> P v -> Forall P (replace_nth a n v).
Proof.
  intros Ha Hv. revert n.
  induction Ha as [|x a Hx Ha IH]; intros [|n]; simpl; auto.
Qed.

Lemma Forall_store {A : Type} (P : A -> Prop) (a a' : list A) (i : Z) (v : A) :
  Forall P a -> P v -> store a i v = Some a' -> Forall P a'.
Proof.
  unfold store. intros Ha Hv H.
  apply bind_Some in H as (_ & _ & [= <-]). now apply Forall_replace_nth.
Qed.

Lemma flip_spins_ok (confs confs' : conf) (i j : Z) :
  spins_ok confs -> flip confs i j = Some confs' -> spins_ok confs'.
Proof.
  unfold flip, set2, get2. intros Hok H.
  apply bind_Some in H as (v & Hv & H).
  apply bind_Some in Hv as (row & Hrow & Hv).
  rewrite Hrow in H; simpl in H.
  apply bind_Some in H as (row' & Hrow' & H).
  assert (Hr : Forall spin_value row) by exact (Forall_index _ _ _ _ Hok Hrow).
  assert (Hsv : spin_value v) by exact (Forall_index _ _ _ _ Hr Hv).
  eapply Forall_store; [exact Hok| |exact H].
  eapply Forall_store; [exact Hr| |exact Hrow'].
  now apply spin_value_flip.
Qed.

Lemma spin_body_confs {G C : Type} (crand : C -> Z * C) (nbs : nbtable)
  (slices : Z) (temp jperp : R) (islice : Z) (st st' : qa_state G C) (sidx : Z) :
  spin_body crand nbs slices temp jperp islice st sidx = Some st' ->
  st_confs st' = st_confs st \/ flip (st_confs st) sidx islice = Some (st_confs st').
Proof.
  rewrite spin_body_accept. intros H.
  apply bind_Some in H as (ediff & _ & H). simpl in H.
  destruct (division_raises _ _); [discriminate|].
  destruct (accept _ _ _).
  - apply bind_Some in H as (confs' & Hflip & [= <-]). now right.
  - injection H as <-. now left.
Qed.

Lemma par_spin_body_confs {C : Type} (crand : C -> Z * C) (nbs : nbtable)
  (slices : Z) (temp jperp : R) (islice : Z) (st st' : par_state C) (sidx : Z) :
  par_spin_body crand nbs slices temp jperp islice st sidx = Some st' ->
  ps_confs st' = ps_confs st \/ flip (ps_confs st) sidx islice = Some (ps_confs st').
Proof.
  rewrite par_spin_body_accept. intros H.
  apply bind_Some in H as (e0 & _ & H).
  apply bind_Some in H as (ediff & _ & H).
  apply bind_Some in H as (ediffs' & _ & H). simpl in H.
  destruct (division_raises _ _); [discriminate|].
  destruct (accept _ _ _).
  - apply bind_Some in H as (confs' & Hflip & [= <-]). now right.
  - injection H as <-. now left.
Qed.

Lemma reachable_spins_ok (confs0 confs : conf) :
  spins_ok confs0 -> reachable confs0 confs -> spins_ok confs.
Proof.
  intros H0 Hr.
  induction Hr as [| G C crand nbs slices temp jperp islice st st' sidx _ IH Hb
                   | C crand nbs slices temp jperp islice st st' sidx _ IH Hb].
  - exact H0.
  - destruct (spin_body_confs _ _ _ _ _ _ _ _ _ Hb) as [-> | Hflip]; [exact IH|].
    exact (flip_spins_ok _ _ _ _ IH Hflip).
  - destruct (par_spin_body_confs _ _ _ _ _ _ _ _ _ Hb) as [-> | Hflip]; [exact IH|].
    exact (flip_spins_ok _ _ _ _ IH Hflip).
Qed.

Section SerialReach.

Context {G C : Type}.
Variable permutation : G -> list Z -> list Z * G.
Variable crand : C -> Z * C.
Variables (nbs : nbtable) (mcsteps slices : Z) (temp : R) (confs0 : conf).

Lemma slice_body_reached (jperp : R) (st st' : qa_state G C) (islice : Z) :
  reached confs0 st -> slice_body crand nbs slices temp jperp st islice = Some st' ->
  reached confs0 st'.
Proof.
  unfold slice_body. intros Hst H.
  apply bind_Some in H as (st1 & Hloop & [= <-]). unfold reached; simpl.
  revert Hloop. apply for_each_invariant with (P := reached confs0); [|exact Hst].
  intros s x s' Hs Hb. exact (reach_spin_body _ _ _ _ _ _ _ _ _ _ _ _ Hs Hb).
Qed.

Lemma step_body_reached (jperp : R) (st st' : qa_state G C) (step : Z) :
  reached confs0 st ->
  step_body permutation crand nbs slices temp jperp st step = Some st' ->
  reached confs0 st'.
Proof.
  unfold step_body. intros Hst H.
  apply bind_Some in H as (st1 & Hloop & H).
  destruct (permutation (st_rng st1) (st_sidx_shuff st1)) as [shuff g'].
  injection H as <-. unfold reached; simpl.
  revert Hloop. apply for_each_invariant with (P := reached confs0); [|exact Hst].
  intros s x s'. apply slice_body_reached.
Qed.

Lemma field_body_reached (st st' : qa_state G C) (field : R) :
  reached confs0 st ->
  field_body permutation crand nbs mcsteps slices temp st field = Some st' ->
  reached confs0 st'.
Proof.
  unfold field_body. intros Hst.
  destruct (Req_dec_T _ _); [discriminate|].
  apply for_each_invariant with (P := reached confs0); [|exact Hst].
  intros s x s'. apply step_body_reached.
Qed.

Lemma QuantumAnneal_reachable (sched : list R) (nspins : Z) (rng : G) (c : C)
  (st : qa_state G C) :
  QuantumAnneal permutation crand sched mcsteps slices temp nspins confs0 nbs rng c
    = Some st ->
  reachable confs0 (st_confs st).
Proof.
  unfold QuantumAnneal.
  apply for_each_invariant with (P := reached confs0).
  - intros s x s'. apply field_body_reached.
  - unfold reached, qa_init.
    destruct (permutation rng (xrange nspins)); simpl. constructor.
Qed.

End SerialReach.

Section ParallelReach.

Context {C : Type}.
Variable crand : C -> Z * C.
Variables (nbs : nbtable) (mcsteps slices nspins : Z) (temp : R) (confs0 : conf).

Lemma par_slice_body_reached (order : list Z) (jperp : R) (st st' : par_state C)
  (islice : Z) :
  par_reached confs0 st ->
  par_slice_body crand order nbs slices temp jperp st islice = Some st' ->
  par_reached confs0 st'.
Proof.
  unfold par_slice_body. intros Hst H.
  apply bind_Some in H as (st1 & Hloop & [= <-]). unfold par_reached; simpl.
  revert Hloop. apply for_each_invariant with (P := par_reached confs0); [|exact Hst].
  intros s x s' Hs Hb. exact (reach_par_spin_body _ _ _ _ _ _ _ _ _ _ _ Hs Hb).
Qed.

Lemma par_field_body_reached (st st' : par_state C) (field : R) :
  par_reached confs0 st ->
  par_field_body crand nspins nbs mcsteps slices temp st field = Some st' ->
  par_reached confs0 st'.
Proof.
  unfold par_field_body. intros Hst.
  destruct (Req_dec_T _ _); [discriminate|].
  apply for_each_invariant with (P := par_reached confs0); [|exact Hst].
  intros s x s' Hs. unfold par_step_body.
  apply for_each_invariant with (P := par_reached confs0); [|exact Hs].
  intros s1 y s1'. apply par_slice_body_reached.
Qed.

Lemma QuantumAnneal_parallel_reachable (sched : list R) (nthreads : Z) (c : C)
  (st : par_state C) :
  QuantumAnneal_parallel crand sched mcsteps slices temp nspins confs0 nbs nthreads c
    = Some st ->
  reachable confs0 (ps_confs st).
Proof.
  unfold QuantumAnneal_parallel. destruct (nspins <? 0)%Z; [discriminate|].
  apply for_each_invariant with (P := par_reached confs0).
  - intros s x s'. apply par_field_body_reached.
  - constructor.
Qed.

End ParallelReach.

(** ** With two slices or more every access is in bounds *)

Lemma for_each_defined {S A : Type} (I : S -> Prop) (body : S -> A -> option S)
  (l : list A) :
  (forall s x, I s -> In x l -> exists s', body s x = Some s' /\ I s') ->
  forall s, I s -> exists s', for_each body s l = Some s' /\ I s'.
Proof.
  induction l as [|x l IH]; intros Hbody s Hs; simpl; [eauto|].
  destruct (Hbody s x Hs (or_introl eq_refl)) as (s1 & -> & Hs1). simpl.
  apply IH; [|exact Hs1]. intros t y Ht Hy. apply Hbody; [exact Ht|now right].
Qed.

Lemma xrange_in_range (n : Z) (N : nat) :
  (n <= Z.of_nat N)%Z -> Forall (in_range N) (xrange n).
Proof.
  intros Hn. unfold xrange. apply Forall_forall. intros i Hi.
  apply in_map_iff in Hi as (k & <- & Hk). apply in_seq in Hk.
  unfold in_range. lia.
Qed.

Lemma get2_defined (N P : nat) (confs : conf) (i j : Z) :
  confs_shape N P confs -> in_range N i -> in_range P j ->
  exists v, get2 confs i j = Some v.
Proof.
  intros [HN HP] Hi Hj. unfold get2, in_range in *.
  destruct (index_in_range confs i) as [row Hrow]; [lia|].
  rewrite Hrow; simpl. apply index_in_range.
  now rewrite (Forall_index _ _ _ _ HP Hrow).
Qed.

Lemma get2_not_None (N P : nat) (confs : conf) (i j : Z) :
  confs_shape N P confs -> in_range N i -> in_range P j ->
  get2 confs i j <> None.
Proof.
  intros Hs Hi Hj. destruct (get2_defined N P confs i j Hs Hi Hj) as [v ->].
  discriminate.
Qed.

Lemma store_length {A : Type} (a a' : list A) (i : Z) (v : A) :
  store a i v = Some a' -> length a' = length a.
Proof.
  unfold store. intros H. apply bind_Some in H as (_ & _ & [= <-]).
  apply replace_nth_length.
Qed.

Lemma flip_shape (N P : nat) (confs confs' : conf) (i j : Z) :
  confs_shape N P confs -> flip confs i j = Some confs' -> confs_shape N P confs'.
Proof.
  unfold flip, set2, get2. intros [HN HP] H.
  apply bind_Some in H as (v & Hv & H).
  apply bind_Some in Hv as (row & Hrow & Hv).
  rewrite Hrow in H; simpl in H.
  apply bind_Some in H as (row' & Hrow' & H).
  split.
  - now rewrite (store_length _ _ _ _ H).
  - eapply Forall_store; [exact HP| |exact H]. simpl.
    rewrite (store_length _ _ _ _ Hrow').
    exact (Forall_index _ _ _ _ HP Hrow).
Qed.

Lemma energy_diff_defined (N P : nat) (confs : conf) (nbs : nbtable)
  (islice sidx : Z) (jperp ediff : R) :
  confs_shape N P confs -> nbs_shape N nbs -> (2 <= P)%nat ->
  in_range N sidx -> in_range P islice ->
  exists e, energy_diff confs nbs (Z.of_nat P) islice sidx jperp ediff = Some e.
Proof.
  intros Hc [HnN Hn] HP Hs Hi.
  destruct (get2_defined N P confs sidx islice Hc Hs Hi) as [cur Hcur].
  destruct (index_in_range nbs sidx) as [row Hrow]; [unfold in_range in Hs; lia|].
  destruct (Forall_index _ _ _ _ Hn Hrow) as [Hlen Hidx].
  unfold energy_diff.
  rewrite (neighbor_loop_sum confs nbs islice sidx row cur ediff Hrow Hlen Hcur).
  - simpl. rewrite trotter_terms_reads, Hcur; simpl.
    destruct (get2_defined N P confs sidx (Z.of_nat P - 1) Hc Hs) as [l ->];
      [unfold in_range; lia|].
    destruct (get2_defined N P confs sidx 1 Hc Hs) as [r ->];
      [unfold in_range; lia|].
    simpl. eauto.
  - intros e He _. rewrite Forall_forall in Hidx.
    exact (get2_not_None N P confs _ islice Hc (Hidx e He) Hi).
Qed.

(** With a number of slices and a temperature that are not 0, no division
    of the call raises. *)
Lemma divisor_nonzero (slices : Z) (temp : R) :
  slices <> 0%Z -> temp <> 0 -> IZR slices * temp <> 0.
Proof.
  intros Hs Ht Hz. apply Rmult_integral in Hz as [Hz|Hz]; [|contradiction].
  apply Hs. now apply eq_IZR.
Qed.

Section SerialDefined.

Context {G C : Type}.
Variable permutation : G -> list Z -> list Z * G.
Variable crand : C -> Z * C.
Variables (N P : nat) (nbs : nbtable) (mcsteps : Z) (temp : R).
Hypothesis nbs_ok : nbs_shape N nbs.
Hypothesis two_slices : (2 <= P)%nat.
Hypothesis permutation_ok : keeps_in_range N permutation.
Hypothesis temp_nonzero : temp <> 0.

Lemma spin_body_defined (jperp : R) (islice : Z) (st : qa_state G C) (sidx : Z) :
  confs_shape N P (st_confs st) -> in_range N sidx -> in_range P islice ->
  exists st', spin_body crand nbs (Z.of_nat P) temp jperp islice st sidx = Some st'
              /\ confs_shape N P (st_confs st')
              /\ st_sidx_shuff st' = st_sidx_shuff st.
Proof.
  intros Hc Hs Hi. rewrite spin_body_accept.
  destruct (energy_diff_defined N P _ nbs islice sidx jperp (st_ediff st)
              Hc nbs_ok two_slices Hs Hi) as [e ->]. simpl.
  rewrite (division_raises_false _ _ temp_nonzero).
  destruct (accept _ _ _); [|eauto].
  destruct (get2_defined N P _ sidx islice Hc Hs Hi) as [v Hv].
  destruct (get2_flip_defined _ _ _ _ Hv) as [confs' Hflip].
  rewrite Hflip; simpl. eauto using flip_shape.
Qed.

Lemma slice_body_defined (jperp : R) (st : qa_state G C) (islice : Z) :
  well_shaped N P st -> in_range P islice ->
  exists st', slice_body crand nbs (Z.of_nat P) temp jperp st islice = Some st'
              /\ well_shaped N P st'.
Proof.
  intros [Hc Hsh] Hi. unfold slice_body.
  destruct (for_each_defined
              (fun s : qa_state G C =>
                 confs_shape N P (st_confs s)
                 /\ st_sidx_shuff s = st_sidx_shuff st)
              (spin_body crand nbs (Z.of_nat P) temp jperp islice)
              (st_sidx_shuff st)) with (s := st) as (st1 & -> & Hc1 & Hsh1); auto.
  - intros s x [Hcs Hss] Hx. rewrite Forall_forall in Hsh.
    destruct (spin_body_defined jperp islice s x Hcs (Hsh x Hx) Hi)
      as (s' & Hb & Hcs' & Hss').
    exists s'. rewrite Hss'. auto.
  - simpl. eexists; split; [reflexivity|]. split; simpl; [exact Hc1|].
    now rewrite Hsh1.
Qed.

Lemma step_body_defined (jperp : R) (st : qa_state G C) (step : Z) :
  well_shaped N P st ->
  exists st', step_body permutation crand nbs (Z.of_nat P) temp jperp st step = Some st'
              /\ well_shaped N P st'.
Proof.
  intros Hst. unfold step_body.
  destruct (for_each_defined (@well_shaped G C N P)
              (slice_body crand nbs (Z.of_nat P) temp jperp)
              (xrange (Z.of_nat P))) with (s := st) as (st1 & -> & Hc1 & Hsh1); auto.
  - intros s x Hs Hx. apply slice_body_defined; [exact Hs|].
    pose proof (xrange_in_range (Z.of_nat P) P (Z.le_refl _)) as Hr.
    rewrite Forall_forall in Hr. auto.
  - simpl. pose proof (permutation_ok (st_rng st1) _ Hsh1) as Hp.
    destruct (permutation (st_rng st1) (st_sidx_shuff st1)) as [shuff g'].
    eexists; split; [reflexivity|]. split; assumption.
Qed.

Lemma QuantumAnneal_defined (sched : list R) (nspins : Z) (confs : conf)
  (rng : G) (c : C) :
  confs_shape N P confs -> (nspins <= Z.of_nat N)%Z ->
  exists st,
    QuantumAnneal permutation crand sched mcsteps (Z.of_nat P) temp nspins confs
      nbs rng c = Some st /\ well_shaped N P st.
Proof.
  intros Hc Hn. unfold QuantumAnneal.
  apply for_each_defined.
  - intros s field Hs _. unfold field_body.
    destruct (Req_dec_T _ _) as [Hz|_];
      [apply divisor_nonzero in Hz; [contradiction|lia|exact temp_nonzero]|].
    apply for_each_defined; [|exact Hs].
    intros t step Ht _. now apply step_body_defined.
  - unfold qa_init.
    pose proof (permutation_ok rng _ (xrange_in_range nspins N Hn)) as Hp.
    destruct (permutation rng (xrange nspins)) as [shuff g']. split; assumption.
Qed.

End SerialDefined.

Section ParallelDefined.

Context {C : Type}.
Variable crand : C -> Z * C.
Variables (N P : nat) (nbs : nbtable) (mcsteps nspins : Z) (temp : R).
Hypothesis nbs_ok : nbs_shape N nbs.
Hypothesis two_slices : (2 <= P)%nat.
Hypothesis nspins_ok : (0 <= nspins <= Z.of_nat N)%Z.
Hypothesis temp_nonzero : temp <> 0.

Lemma par_spin_body_defined (jperp : R) (islice : Z) (st : par_state C) (sidx : Z) :
  par_well_shaped N P nspins st -> In sidx (xrange nspins) -> in_range P islice ->
  exists st', par_spin_body crand nbs (Z.of_nat P) temp jperp islice st sidx = Some st'
              /\ par_well_shaped N P nspins st'.
Proof.
  intros [Hc He] Hs Hi. rewrite par_spin_body_accept.
  assert (Hs' : (0 <= sidx < nspins)%Z).
  { unfold xrange in Hs. apply in_map_iff in Hs as (k & <- & Hk).
    apply in_seq in Hk. lia. }
  assert (HsN : in_range N sidx) by (unfold in_range; lia).
  assert (HsE : (0 <= sidx < Z.of_nat (length (ps_ediffs st)))%Z) by lia.
  destruct (index_in_range _ _ HsE) as [e0 ->]. simpl.
  destruct (energy_diff_defined N P _ nbs islice sidx jperp e0
              Hc nbs_ok two_slices HsN Hi) as [e ->]. simpl.
  rewrite (store_defined _ _ e HsE). simpl.
  assert (Hlen : length (replace_nth (ps_ediffs st) (Z.to_nat sidx) e)
                 = Z.to_nat nspins) by now rewrite replace_nth_length.
  rewrite (division_raises_false _ _ temp_nonzero).
  destruct (accept _ _ _); [|eexists; split; [reflexivity|split; assumption]].
  destruct (get2_defined N P _ sidx islice Hc HsN Hi) as [v Hv].
  destruct (get2_flip_defined _ _ _ _ Hv) as [confs' Hflip].
  rewrite Hflip; simpl. eexists; split; [reflexivity|].
  split; [eapply flip_shape; eassumption|exact Hlen].
Qed.

Lemma QuantumAnneal_parallel_defined (sched : list R) (confs : conf)
  (nthreads : Z) (c : C) :
  confs_shape N P confs ->
  exists st,
    QuantumAnneal_parallel crand sched mcsteps (Z.of_nat P) temp nspins confs nbs
      nthreads c = Some st /\ par_well_shaped N P nspins st.
Proof.
  intros Hc. unfold QuantumAnneal_parallel.
  destruct (Z.ltb_spec nspins 0) as [Hneg|_]; [lia|].
  apply for_each_defined.
  - intros s field Hs _. unfold par_field_body.
    destruct (Req_dec_T _ _) as [Hz|_];
      [apply divisor_nonzero in Hz; [contradiction|lia|exact temp_nonzero]|].
    apply for_each_defined; [|exact Hs].
    intros t step Ht _. unfold par_step_body. apply for_each_defined; [|exact Ht].
    intros u islice Hu Hi. unfold par_slice_body.
    assert (HiP : in_range P islice).
    { pose proof (xrange_in_range (Z.of_nat P) P (Z.le_refl _)) as Hr.
      rewrite Forall_forall in Hr. auto. }
    assert (Hloop : exists u1,
               for_each (par_spin_body crand nbs (Z.of_nat P) temp
                           (jperp_of (Z.of_nat P) temp field) islice) u
                 (xrange nspins) = Some u1 /\ par_well_shaped N P nspins u1).
    { apply for_each_defined; [|exact Hu].
      intros v x Hv Hx. now apply par_spin_body_defined. }
    destruct Hloop as (u1 & -> & Hc1 & He1). simpl.
    eexists; split; [reflexivity|]. split; simpl; [exact Hc1|].
    now rewrite length_map.
  - split; [exact Hc|]. simpl. apply repeat_length.
Qed.

End ParallelDefined.

(** C6: from a configuration whose entries are all +1 or -1, every
    configuration a call goes through has all its entries +1 or -1: the
    configuration on entry, the one after each spin update of the serial or
    the parallel sweep (the only statement that writes to it multiplies an
    entry by -1), and the one each entry point returns with.  With at
    least two slices, a temperature that is not 0 (the divisions then do
    not raise) and well-formed arrays both entry points do return. *)
Theorem spins_stay_plus_or_minus_one (confs0 : conf) :
  spins_ok confs0 ->
  (forall confs, reachable confs0 confs -> spins_ok confs) /\
  (forall (G C : Type) (permutation : G -> list Z -> list Z * G)
          (crand : C -> Z * C) (sched : list R) (mcsteps slices : Z) (temp : R)
          (nspins : Z) (nbs : nbtable) (rng : G) (c : C) (st : qa_state G C),
     QuantumAnneal permutation crand sched mcsteps slices temp nspins confs0 nbs rng c
       = Some st ->
     reachable confs0 (st_confs st) /\ spins_ok (st_confs st)) /\
  (forall (C : Type) (crand : C -> Z * C) (sched : list R) (mcsteps slices : Z)
          (temp : R) (nspins : Z) (nbs : nbtable) (nthreads : Z) (c : C)
          (st : par_state C),
     QuantumAnneal_parallel crand sched mcsteps slices temp nspins confs0 nbs
       nthreads c = Some st ->
     reachable confs0 (ps_confs st) /\ spins_ok (ps_confs st)) /\
  (forall (G C : Type) (permutation : G -> list Z -> list Z * G)
          (crand : C -> Z * C) (N P : nat) (sched : list R) (mcsteps : Z)
          (temp : R) (nspins : Z) (nbs : nbtable) (rng : G) (c : C),
     confs_shape N P confs0 -> nbs_shape N nbs -> (2 <= P)%nat ->
     (nspins <= Z.of_nat N)%Z -> keeps_in_range N permutation -> temp <> 0 ->
     exists st,
       QuantumAnneal permutation crand sched mcsteps (Z.of_nat P) temp nspins
         confs0 nbs rng c = Some st /\ spins_ok (st_confs st)) /\
  (forall (C : Type) (crand : C -> Z * C) (N P : nat) (sched : list R)
          (mcsteps : Z) (temp : R) (nspins : Z) (nbs : nbtable) (nthreads : Z)
          (c : C),
     confs_shape N P confs0 -> nbs_shape N nbs -> (2 <= P)%nat ->
     (0 <= nspins <= Z.of_nat N)%Z -> temp <> 0 ->
     exists st,
       QuantumAnneal_parallel crand sched mcsteps (Z.of_nat P) temp nspins
         confs0 nbs nthreads c = Some st /\ spins_ok (ps_confs st)).
Proof.
  intros H0. split; [|split; [|split; [|split]]].
  - intros confs. now apply reachable_spins_ok.
  - intros G C permutation crand sched mcsteps slices temp nspins nbs rng c st H.
    apply QuantumAnneal_reachable in H. eauto using reachable_spins_ok.
  - intros C crand sched mcsteps slices temp nspins nbs nthreads c st H.
    apply QuantumAnneal_parallel_reachable in H. eauto using reachable_spins_ok.
  - intros G C permutation crand N P sched mcsteps temp nspins nbs rng c
      Hc Hn HP Hs Hp Ht.
    destruct (QuantumAnneal_defined permutation crand N P nbs mcsteps temp
                Hn HP Hp Ht sched nspins confs0 rng c Hc Hs) as (st & Hrun & _).
    exists st. split; [exact Hrun|].
    apply QuantumAnneal_reachable in Hrun. eauto using reachable_spins_ok.
  - intros C crand N P sched mcsteps temp nspins nbs nthreads c Hc Hn HP Hs Ht.
    destruct (QuantumAnneal_parallel_defined crand N P nbs mcsteps nspins temp
                Hn HP Hs Ht sched confs0 nthreads c Hc) as (st & Hrun & _).
    exists st. split; [exact Hrun|].
    apply QuantumAnneal_parallel_reachable in Hrun. eauto using reachable_spins_ok.
Qed.

(** ** The accumulators of the parallel sweep *)

Lemma index_store_other {A : Type} (a a' : list A) (i j : Z) (v : A) :
  store a i v = Some a' -> j <> i -> index a' j = index a j.
Proof.
  unfold store. intros H Hne.
  apply bind_Some in H as (x & Hx & [= <-]).
  apply index_Some in Hx as [Hi _].
  unfold index. destruct (Z.ltb_spec j 0) as [|Hj]; [reflexivity|].
  rewrite nth_error_replace_nth by lia.
  destruct (Nat.eqb_spec (Z.to_nat j) (Z.to_nat i)) as [Heq|]; [lia|reflexivity].
Qed.

Lemma par_spin_body_ediffs {C : Type} (crand : C -> Z * C) (nbs : nbtable)
  (slices : Z) (temp jperp : R) (islice : Z) (st st' : par_state C) (sidx : Z) :
  par_spin_body crand nbs slices temp jperp islice st sidx = Some st' ->
  forall s, s <> sidx -> index (ps_ediffs st') s = index (ps_ediffs st) s.
Proof.
  rewrite par_spin_body_accept. intros H s Hs.
  apply bind_Some in H as (e0 & _ & H).
  apply bind_Some in H as (ediff & _ & H).
  apply bind_Some in H as (ediffs' & Hstore & H). simpl in H.
  destruct (division_raises _ _); [discriminate|].
  destruct (accept _ _ _).
  - apply bind_Some in H as (confs' & _ & [= <-]). simpl.
    eauto using index_store_other.
  - injection H as <-. simpl. eauto using index_store_other.
Qed.

(** When the slots of the spins still to visit hold 0 and no spin is
    visited twice, every spin of the parallel sweep is decided on its own
    energy difference. *)
Lemma par_spin_loop_own {C : Type} (crand : C -> Z * C) (nbs : nbtable)
  (slices : Z) (temp jperp : R) (islice : Z) (order : list Z) :
  NoDup order ->
  forall st : par_state C,
    (forall s e, In s order -> index (ps_ediffs st) s = Some e -> e = 0) ->
    for_each (par_spin_body crand nbs slices temp jperp islice) st order =
    for_each (par_spin_body_own crand nbs slices temp jperp islice) st order.
Proof.
  induction 1 as [|x order Hx Hnd IH]; intros st Hzero; simpl; [reflexivity|].
  assert (Hbody : par_spin_body crand nbs slices temp jperp islice st x =
                  par_spin_body_own crand nbs slices temp jperp islice st x).
  { rewrite par_spin_body_accept. unfold par_spin_body_own.
    destruct (index (ps_ediffs st) x) as [e|] eqn:He; [|reflexivity].
    now rewrite (Hzero x e (or_introl eq_refl) He). }
  rewrite <- Hbody.
  destruct (par_spin_body crand nbs slices temp jperp islice st x) as [st'|] eqn:Hb;
    simpl; [|reflexivity].
  apply IH. intros s e Hs.
  rewrite (par_spin_body_ediffs _ _ _ _ _ _ _ _ _ Hb s).
  - apply Hzero. now right.
  - intros ->. contradiction.
Qed.

Lemma xrange_NoDup (n : Z) : NoDup (xrange n).
Proof.
  unfold xrange. apply NoDup_map_NoDup_ForallPairs.
  - intros a b _ _. apply Nat2Z.inj.
  - apply seq_NoDup.
Qed.

(** A slice of the parallel sweep that starts with every accumulator at 0
    decides every spin on its own energy difference, and ends with every
    accumulator at 0. *)
Lemma par_slice_body_own {C : Type} (crand : C -> Z * C) (nspins : Z)
  (nbs : nbtable) (slices : Z) (temp jperp : R) (st : par_state C) (islice : Z) :
  Forall (fun e => e = 0) (ps_ediffs st) ->
  par_slice_body crand (xrange nspins) nbs slices temp jperp st islice =
    (st' <- for_each (par_spin_body_own crand nbs slices temp jperp islice) st
              (xrange nspins) ;;
     Some (mk_par (ps_confs st') (map (fun _ => 0) (ps_ediffs st')) (ps_crand st')))
  /\ forall st', par_slice_body crand (xrange nspins) nbs slices temp jperp st islice
                 = Some st' ->
                 Forall (fun e => e = 0) (ps_ediffs st').
Proof.
  intros Hzero. split.
  - unfold par_slice_body.
    rewrite par_spin_loop_own; [reflexivity|apply xrange_NoDup|].
    intros s e _ He. exact (Forall_index _ _ _ _ Hzero He).
  - unfold par_slice_body. intros st' H.
    apply bind_Some in H as (st1 & _ & [= <-]). simpl.
    apply Forall_forall. intros e He. apply in_map_iff in He as (_ & <- & _).
    reflexivity.
Qed.

(** ** Bounds used to evaluate runs *)

Lemma tanh_between (x : R) : 0 < x -> 0 < tanh x < 1.
Proof.
  intros Hx. unfold tanh, sinh, cosh.
  pose proof (exp_pos (- x)) as Hb.
  assert (Hab : exp (- x) < exp x) by (apply exp_increasing; lra).
  set (a := exp x) in *. set (b := exp (- x)) in *.
  split.
  - apply Rdiv_lt_0_compat; lra.
  - apply Rmult_lt_reg_r with ((a + b) / 2); [lra|].
    unfold Rdiv at 1. rewrite Rmult_assoc, Rinv_l by lra. lra.
Qed.

(** A positive field gives a positive coupling between slices. *)
Lemma jperp_of_pos (slices : Z) (temp field : R) :
  (0 < slices)%Z -> 0 < temp -> 0 < field -> 0 < jperp_of slices temp field.
Proof.
  intros Hs Ht Hf. apply IZR_lt in Hs. unfold jperp_of.
  assert (Hk : 0 < IZR slices * temp) by now apply Rmult_lt_0_compat.
  assert (Hx : 0 < field / (IZR slices * temp)) by now apply Rdiv_lt_0_compat.
  destruct (tanh_between _ Hx) as [Hlo Hhi].
  pose proof (ln_increasing _ _ Hlo Hhi) as Hln. rewrite ln_1 in Hln.
  set (L := ln _) in *. nra.
Qed.

Lemma exp_below_third (x : R) : x <= -2 -> exp x < 1 / 3.
Proof.
  intros Hx.
  assert (H2 : 3 < exp 2) by (pose proof (exp_ineq1 2); lra).
  assert (Hm : exp (-2) < 1 / 3).
  { replace (-2) with (- (2)) by lra.
    rewrite exp_Ropp. unfold Rdiv. rewrite Rmult_1_l.
    apply Rinv_lt_contravar; [nra|exact H2]. }
  destruct Hx as [Hlt | ->]; [|exact Hm].
  apply exp_increasing in Hlt. lra.
Qed.

Lemma cexp_pos (x : R) : -500 <= x -> 0 < cexp x.
Proof.
  intros Hx. pose proof exp_underflow_below.
  rewrite cexp_above by lra. apply exp_pos.
Qed.

(** Settles the next comparison of the acceptance test: the sign of the
    energy difference first, then the divisor, then the exponential against
    the draw, which is either above 1/3 with [ediff/temp <= -2], or 0 with
    [ediff/temp] above the underflow threshold. *)
Ltac decide_sign :=
  match goal with
  | |- context [Rgt_dec ?a 0] =>
      destruct (Rgt_dec a 0); [ try (exfalso; lra) | try (exfalso; lra) ]
  | |- context [Req_dec_T ?a 0] =>
      destruct (Req_dec_T a 0); [ try (exfalso; lra) | ]
  | |- context [Rgt_dec (cexp ?x) ?d] =>
      destruct (Rgt_dec (cexp x) d);
      [ try (exfalso; pose proof (cexp_le_exp x);
             assert (exp x < 1 / 3) by (apply exp_below_third; lra);
             assert (1 / 3 < d) by (unfold draw, RAND_MAX; lra); lra)
      | try (exfalso;
             assert (0 < cexp x) by (apply cexp_pos; lra);
             assert (d = 0) by (unfold draw, RAND_MAX; lra); lra) ]
  end.

Ltac run_sweep :=
  unfold step_body, slice_body, spin_body, par_step_body, par_slice_body,
    par_spin_body, energy_diff, neighbor_loop, trotter_terms, neighbor_term;
  repeat first [ progress run_arrays | decide_sign ].

Ltac same_state := repeat (f_equal; try lra).

(** ** A run of two spins on two slices *)

Lemma demo_first_spin (jperp : R) (g : nat) (c : list Z) :
  0 < jperp ->
  spin_body replay demo_nbs 2 1 jperp 0
    (mk_qa demo_confs 0 [0; 1]%Z g c) 0 =
    Some (mk_qa [[-1; -1]; [1; 1]] (4 + 4 * jperp) [0; 1]%Z g c).
Proof. intros Hj. unfold demo_confs, demo_nbs. run_sweep. same_state. Qed.

Lemma demo_second_spin_own (jperp : R) :
  energy_diff [[-1; -1]; [1; 1]] demo_nbs 2 0 1 jperp 0 = Some (-2 - 4 * jperp).
Proof. unfold demo_nbs. run_sweep. same_state. Qed.

Lemma demo_second_spin (jperp : R) (g : nat) (c : list Z) :
  0 < jperp ->
  spin_body replay demo_nbs 2 1 jperp 0
    (mk_qa [[-1; -1]; [1; 1]] (4 + 4 * jperp) [0; 1]%Z g c) 1 =
    Some (mk_qa [[-1; -1]; [-1; 1]] 2 [0; 1]%Z g c).
Proof. intros Hj. unfold demo_nbs. run_sweep. same_state. Qed.

Lemma demo_step (jperp : R) (g : nat) :
  0 < jperp ->
  step_body keep_order replay demo_nbs 2 1 jperp
    (mk_qa demo_confs 0 [0; 1]%Z g demo_stream) 0 =
    Some (mk_qa [[-1; -1]; [-1; 1]] 0 [0; 1]%Z (S g) [1681692777; 1714636915]%Z).
Proof.
  intros Hj. unfold demo_confs, demo_nbs, demo_stream. run_sweep. same_state.
Qed.

(** The same sweep when every value of [crand()] is 0. *)
Lemma demo_step_zero_draws (jperp : R) (g : nat) :
  0 < jperp < 2 ->
  step_body keep_order replay demo_nbs 2 1 jperp
    (mk_qa demo_confs 0 [0; 1]%Z g []) 0 =
    Some (mk_qa [[-1; 1]; [-1; -1]] 0 [0; 1]%Z (S g) []).
Proof.
  intros Hj. unfold demo_confs, demo_nbs. run_sweep. same_state.
Qed.

Lemma demo_par_step (jperp : R) :
  0 < jperp ->
  par_step_body replay 2 demo_nbs 2 1 jperp
    (mk_par demo_confs [0; 0] demo_stream) 0 =
    Some (mk_par [[-1; -1]; [1; 1]] [0; 0] [1714636915%Z]).
Proof.
  intros Hj. unfold demo_confs, demo_nbs, demo_stream. run_sweep. same_state.
Qed.

Lemma demo_jperp_pos : 0 < jperp_of 2 1 1.
Proof. apply jperp_of_pos; [lia|lra|lra]. Qed.

Lemma demo_jperp_below : jperp_of 2 1 1 < 2.
Proof.
  unfold jperp_of. replace (1 / (2 * 1)) with (/ 2) by lra.
  assert (Ht : 1 / 3 < tanh (/ 2)).
  { unfold tanh, sinh, cosh.
    pose proof (exp_pos (/ 2)) as Ha. pose proof (exp_pos (- / 2)) as Hb.
    assert (Hab : exp (/ 2) * exp (- / 2) = 1).
    { rewrite <- exp_plus. replace (/ 2 + - / 2) with 0 by lra. apply exp_0. }
    assert (Haa : 2 < exp (/ 2) * exp (/ 2)).
    { rewrite <- exp_plus. replace (/ 2 + / 2) with 1 by lra.
      pose proof (exp_ineq1 1). lra. }
    set (a := exp (/ 2)) in *. set (b := exp (- / 2)) in *.
    assert (Hlt : 2 * b < a) by nra.
    apply Rmult_lt_reg_r with ((a + b) / 2); [lra|].
    replace ((a - b) / 2 / ((a + b) / 2) * ((a + b) / 2)) with ((a - b) / 2)
      by (field; lra).
    lra. }
  assert (Hm : exp (-2) < 1 / 3) by (apply exp_below_third; lra).
  pose proof (ln_increasing _ _ (exp_pos (-2)) (Rlt_trans _ _ _ Hm Ht)) as Hln.
  rewrite ln_exp in Hln. set (L := ln _) in *. lra.
Qed.

Lemma demo_jperp_range : 0 < jperp_of 2 1 1 < 2.
Proof. split; [apply demo_jperp_pos|apply demo_jperp_below]. Qed.

Lemma demo_run :
  QuantumAnneal keep_order replay [1] 1 2 1 2 demo_confs demo_nbs 0%nat demo_stream =
    Some (mk_qa [[-1; -1]; [-1; 1]] 0 [0; 1]%Z 2%nat [1681692777; 1714636915]%Z).
Proof.
  unfold QuantumAnneal, field_body.
  change (xrange 1) with [0%Z].
  change (qa_init keep_order 2 demo_confs 0%nat demo_stream)
    with (mk_qa demo_confs 0 [0; 1]%Z 1%nat demo_stream).
  simpl for_each. destruct (Req_dec_T _ _) as [Hz|_]; [exfalso; lra|].
  now rewrite (demo_step _ _ demo_jperp_pos).
Qed.

Lemma demo_run_zero_draws :
  QuantumAnneal keep_order replay [1] 1 2 1 2 demo_confs demo_nbs 0%nat [] =
    Some (mk_qa [[-1; 1]; [-1; -1]] 0 [0; 1]%Z 2%nat []).
Proof.
  unfold QuantumAnneal, field_body.
  change (xrange 1) with [0%Z].
  change (qa_init keep_order 2 demo_confs 0%nat [])
    with (mk_qa (C := list Z) demo_confs 0 [0; 1]%Z 1%nat []).
  simpl for_each. destruct (Req_dec_T _ _) as [Hz|_]; [exfalso; lra|].
  now rewrite (demo_step_zero_draws _ _ demo_jperp_range).
Qed.

Lemma demo_par_run :
  QuantumAnneal_parallel replay [1] 1 2 1 2 demo_confs demo_nbs 1 demo_stream =
    Some (mk_par [[-1; -1]; [1; 1]] [0; 0] [1714636915%Z]).
Proof.
  unfold QuantumAnneal_parallel, par_field_body.
  change (2 <? 0)%Z with false. change (xrange 1) with [0%Z].
  change (repeat 0 (Z.to_nat 2)) with [0; 0].
  simpl for_each. destruct (Req_dec_T _ _) as [Hz|_]; [exfalso; lra|].
  now rewrite (demo_par_step _ demo_jperp_pos).
Qed.

(** C4: the claim has [ediff] reset before each spin.  The serial sweep
    resets it once per slice, after the spin loop.  On the run above (two
    spins, two slices, schedule [1], one step, order 0 then 1) spin 0 of
    slice 0 leaves [4 + 4*jperp] in the accumulator; spin 1, whose own
    energy difference [-2 - 4*jperp] is rejected by the acceptance test
    with the draw at hand, is evaluated on the sum 2 and flipped.  The call
    returns with spin 1 flipped in slice 0, while the parallel sweep,
    which keeps one accumulator per spin, leaves that spin as it was. *)
Theorem ediff_carried_across_spins :
  let jperp := jperp_of 2 1 1 in
  spin_body replay demo_nbs 2 1 jperp 0
    (mk_qa demo_confs 0 [0; 1]%Z 1%nat demo_stream) 0 =
    Some (mk_qa [[-1; -1]; [1; 1]] (4 + 4 * jperp) [0; 1]%Z 1%nat demo_stream) /\
  4 + 4 * jperp <> 0 /\
  energy_diff [[-1; -1]; [1; 1]] demo_nbs 2 0 1 jperp 0 = Some (-2 - 4 * jperp) /\
  accept (-2 - 4 * jperp) 1 (fst (replay demo_stream)) = false /\
  spin_body replay demo_nbs 2 1 jperp 0
    (mk_qa [[-1; -1]; [1; 1]] (4 + 4 * jperp) [0; 1]%Z 1%nat demo_stream) 1 =
    Some (mk_qa [[-1; -1]; [-1; 1]] 2 [0; 1]%Z 1%nat demo_stream) /\
  option_map st_confs
    (QuantumAnneal keep_order replay [1] 1 2 1 2 demo_confs demo_nbs 0%nat demo_stream)
    = Some [[-1; -1]; [-1; 1]] /\
  option_map ps_confs
    (QuantumAnneal_parallel replay [1] 1 2 1 2 demo_confs demo_nbs 1 demo_stream)
    = Some [[-1; -1]; [1; 1]].
Proof.
  intros jperp. pose proof demo_jperp_pos as Hj. fold jperp in Hj.
  split; [now apply demo_first_spin|].
  split; [lra|].
  split; [apply demo_second_spin_own|].
  split.
  - unfold accept, demo_stream; simpl fst. repeat decide_sign. reflexivity.
  - split; [now apply demo_second_spin|].
    now rewrite demo_run, demo_par_run.
Qed.

(** ** A single slice *)

Lemma one_slice_energy_diff_undefined (confs : conf) (nbs : nbtable)
  (islice sidx : Z) (jperp ediff : R) :
  Forall (fun row => length row = 1%nat) confs ->
  energy_diff confs nbs 1 islice sidx jperp ediff = None.
Proof.
  intros Hshape. unfold energy_diff.
  destruct (neighbor_loop confs nbs islice sidx ediff) as [e|]; simpl; [|reflexivity].
  rewrite trotter_terms_reads.
  assert (Hright : get2 confs sidx 1 = None).
  { unfold get2. destruct (index confs sidx) as [row|] eqn:Hrow; simpl; [|reflexivity].
    apply index_out_of_range.
    rewrite (Forall_index _ _ _ _ Hshape Hrow). simpl; lia. }
  rewrite Hright.
  destruct (get2 confs sidx islice); simpl; [|reflexivity].
  destruct (get2 confs sidx 0); reflexivity.
Qed.

(** C7: with one slice the left neighbour is slice 0, but the right
    neighbour is slice 1, which the configuration does not have: the energy
    difference of any spin reads outside the array, and so do both entry
    points on one spin with one slice. *)
Theorem one_slice_right_neighbour_out_of_bounds :
  (forall islice : Z, periodic_boundaries 1 islice = (0%Z, 1%Z)) /\
  (forall v : R, get2 [[v]] 0 0 = Some v /\ get2 [[v]] 0 1 = None) /\
  (forall (nbs : nbtable) (islice sidx : Z) (jperp ediff v : R),
     energy_diff [[v]] nbs 1 islice sidx jperp ediff = None) /\
  QuantumAnneal keep_order replay [1] 1 1 1 1 [[1]] [[]] 0%nat demo_stream = None /\
  QuantumAnneal_parallel replay [1] 1 1 1 1 [[1]] [[]] 1 demo_stream = None.
Proof.
  split; [reflexivity|].
  split; [intros v; split; reflexivity|].
  split.
  - intros. apply one_slice_energy_diff_undefined. repeat constructor.
  - split.
    + unfold QuantumAnneal, field_body. simpl for_each.
      destruct (Req_dec_T _ _) as [Hz|_]; [exfalso; lra|]. reflexivity.
    + unfold QuantumAnneal_parallel, par_field_body.
      change (1 <? 0)%Z with false. simpl for_each.
      destruct (Req_dec_T _ _) as [Hz|_]; [exfalso; lra|]. reflexivity.
Qed.

(** ** What the result depends on *)

(** C8 as stated fails: the acceptance draws come from [crand()], not from
    the injected generator.  The two runs below get the same arguments and
    the same state of [rng]; the hidden state of [crand] differs and so do
    the configurations returned. *)
Lemma same_rng_state_different_confs :
  option_map st_confs
    (QuantumAnneal keep_order replay [1] 1 2 1 2 demo_confs demo_nbs 0%nat demo_stream)
    = Some [[-1; -1]; [-1; 1]] /\
  option_map st_confs
    (QuantumAnneal keep_order replay [1] 1 2 1 2 demo_confs demo_nbs 0%nat [])
    = Some [[-1; 1]; [-1; -1]] /\
  [[-1; -1]; [-1; 1]] <> [[-1; 1]; [-1; -1]].
Proof.
  rewrite demo_run, demo_run_zero_draws.
  split; [reflexivity|]. split; [reflexivity|].
  intros [= H]. lra.
Qed.

Lemma for_each_same_result {S1 S2 A : Type} (R : S1 -> S2 -> Prop)
  (body1 : S1 -> A -> option S1) (body2 : S2 -> A -> option S2) (l : list A) :
  (forall s1 s2 x, R s1 s2 -> same_result R (body1 s1 x) (body2 s2 x)) ->
  forall s1 s2, R s1 s2 -> same_result R (for_each body1 s1 l) (for_each body2 s2 l).
Proof.
  intros Hbody. induction l as [|x l IH]; intros s1 s2 Hs; simpl; [exact Hs|].
  specialize (Hbody s1 s2 x Hs).
  destruct (body1 s1 x) as [t1|], (body2 s2 x) as [t2|]; simpl in *;
    try contradiction; auto.
Qed.

Section TwoRuns.

Context {G1 G2 C1 C2 : Type}.
Variable permutation1 : G1 -> list Z -> list Z * G1.
Variable permutation2 : G2 -> list Z -> list Z * G2.
Variable crand1 : C1 -> Z * C1.
Variable crand2 : C2 -> Z * C2.
Variable RG : G1 -> G2 -> Prop.
Variable RC : C1 -> C2 -> Prop.
Hypothesis permutation_alike : answers_alike RG permutation1 permutation2.
Hypothesis crand_alike :
answers_alike RC (fun c (_ : unit) => crand1 c) (fun c _ => crand2 c).
Variables (nbs : nbtable) (mcsteps slices : Z) (temp : R).

Lemma spin_body_same (jperp : R) (islice : Z) (s1 : qa_state G1 C1)
(s2 : qa_state G2 C2) (sidx : Z) :
same_state RG RC s1 s2 ->
same_result (same_state RG RC)
  (spin_body crand1 nbs slices temp jperp islice s1 sidx)
  (spin_body crand2 nbs slices temp jperp islice s2 sidx).
Proof.
intros (Hc & He & Hs & Hg & Hr). rewrite !spin_body_accept.
rewrite <- Hc, <- He, <- Hs.
destruct (energy_diff _ _ _ _ _ _ _) as [ediff|]; simpl; [|exact I].
destruct (crand_alike _ _ tt Hr) as [Hk Hr']. rewrite <- Hk.
assert (Hc' : RC (if Rgt_dec ediff 0 then st_crand s1 else snd (crand1 (st_crand s1)))
                 (if Rgt_dec ediff 0 then st_crand s2 else snd (crand2 (st_crand s2))))
  by (destruct (Rgt_dec ediff 0); assumption).
destruct (division_raises _ _); [exact I|].
destruct (accept _ _ _).
- destruct (flip _ _ _) as [confs'|]; simpl; [|exact I].
  repeat split; assumption.
- simpl. repeat split; assumption.
Qed.

Lemma slice_body_same (jperp : R) (s1 : qa_state G1 C1) (s2 : qa_state G2 C2)
(islice : Z) :
same_state RG RC s1 s2 ->
same_result (same_state RG RC)
  (slice_body crand1 nbs slices temp jperp s1 islice)
  (slice_body crand2 nbs slices temp jperp s2 islice).
Proof.
intros Hs. unfold slice_body.
assert (Hshuff : st_sidx_shuff s1 = st_sidx_shuff s2) by apply Hs.
rewrite <- Hshuff.
pose proof (for_each_same_result (same_state RG RC) _ _ (st_sidx_shuff s1)
              (fun t1 t2 x => spin_body_same jperp islice t1 t2 x) s1 s2 Hs) as H.
destruct (for_each _ s1 _) as [t1|], (for_each _ s2 _) as [t2|]; simpl in *;
  try contradiction; auto.
destruct H as (Hc & _ & Hsh & Hg & Hr). repeat split; assumption.
Qed.

Lemma step_body_same (jperp : R) (s1 : qa_state G1 C1) (s2 : qa_state G2 C2)
(step : Z) :
same_state RG RC s1 s2 ->
same_result (same_state RG RC)
  (step_body permutation1 crand1 nbs slices temp jperp s1 step)
  (step_body permutation2 crand2 nbs slices temp jperp s2 step).
Proof.
intros Hs. unfold step_body.
pose proof (for_each_same_result (same_state RG RC) _ _ (xrange slices)
              (fun t1 t2 x => slice_body_same jperp t1 t2 x) s1 s2 Hs) as H.
destruct (for_each _ s1 _) as [t1|], (for_each _ s2 _) as [t2|]; simpl in *;
  try contradiction; auto.
destruct H as (Hc & He & Hsh & Hg & Hr).
destruct (permutation_alike _ _ (st_sidx_shuff t1) Hg) as [Hp Hg'].
rewrite <- Hsh.
destruct (permutation1 (st_rng t1) (st_sidx_shuff t1)) as [p1 g1'],
         (permutation2 (st_rng t2) (st_sidx_shuff t1)) as [p2 g2'].
simpl in *. repeat split; assumption.
Qed.

Lemma QuantumAnneal_same (sched : list R) (nspins : Z) (confs : conf)
(g1 : G1) (g2 : G2) (c1 : C1) (c2 : C2) :
RG g1 g2 -> RC c1 c2 ->
same_result (same_state RG RC)
  (QuantumAnneal permutation1 crand1 sched mcsteps slices temp nspins confs nbs g1 c1)
  (QuantumAnneal permutation2 crand2 sched mcsteps slices temp nspins confs nbs g2 c2).
Proof.
intros Hg Hc. unfold QuantumAnneal.
apply for_each_same_result.
- intros s1 s2 field Hs. unfold field_body.
  destruct (Req_dec_T _ _); [exact I|].
  apply for_each_same_result; [|exact Hs].
  intros t1 t2 step. apply step_body_same.
- unfold qa_init.
  destruct (permutation_alike _ _ (xrange nspins) Hg) as [Hp Hg'].
  destruct (permutation1 g1 (xrange nspins)) as [p1 g1'],
           (permutation2 g2 (xrange nspins)) as [p2 g2'].
  simpl in *. repeat split; assumption.
Qed.

End TwoRuns.

(** C8 (as amended): two serial runs on the same schedule, counts,
    temperature, configuration and neighbour table, whose injected
    generators answer alike from their initial states and whose [crand]s
    answer alike from theirs, both read outside the arrays or both return,
    and then with the same configuration: the answers of the injected
    generator together with the values of [crand()] are all that the result
    depends on besides the arguments. *)
Theorem serial_result_determined_by_both_generators {G1 G2 C1 C2 : Type}
  (permutation1 : G1 -> list Z -> list Z * G1)
  (permutation2 : G2 -> list Z -> list Z * G2)
  (crand1 : C1 -> Z * C1) (crand2 : C2 -> Z * C2)
  (RG : G1 -> G2 -> Prop) (RC : C1 -> C2 -> Prop)
  (sched : list R) (mcsteps slices : Z) (temp : R) (nspins : Z) (confs : conf)
  (nbs : nbtable) (g1 : G1) (g2 : G2) (c1 : C1) (c2 : C2) :
  answers_alike RG permutation1 permutation2 ->
  answers_alike RC (fun c (_ : unit) => crand1 c) (fun c _ => crand2 c) ->
  RG g1 g2 -> RC c1 c2 ->
  option_map st_confs
    (QuantumAnneal permutation1 crand1 sched mcsteps slices temp nspins confs nbs g1 c1)
  = option_map st_confs
    (QuantumAnneal permutation2 crand2 sched mcsteps slices temp nspins confs nbs g2 c2).
Proof.
  intros Hperm Hcrand Hg Hc.
  pose proof (QuantumAnneal_same permutation1 permutation2 crand1 crand2 RG RC
                Hperm Hcrand nbs mcsteps slices temp sched nspins confs g1 g2 c1 c2
                Hg Hc) as H.
  destruct (QuantumAnneal permutation1 _ _ _ _ _ _ _ _ _ _) as [s1|],
           (QuantumAnneal permutation2 _ _ _ _ _ _ _ _ _ _) as [s2|];
    simpl in *; try contradiction; auto.
  destruct H as [-> _]. reflexivity.
Qed.

(** ** Instances *)




Lemma demo_confs_ok : spins_ok demo_confs.
Proof.
  unfold spins_ok, demo_confs.
  repeat (apply Forall_cons || apply Forall_nil); unfold spin_value; auto.
Qed.

Lemma demo_confs_shape : confs_shape 2 2 demo_confs.
Proof. split; [reflexivity|]. repeat constructor. Qed.

Lemma demo_nbs_shape : nbs_shape 2 demo_nbs.
Proof.
  split; [reflexivity|].
  repeat (apply Forall_cons || apply Forall_nil);
    (split; [reflexivity|]);
    repeat (apply Forall_cons || apply Forall_nil);
    simpl fst; rewrite int_of_float_IZR; unfold in_range; lia.
Qed.

Lemma spins_stay_plus_or_minus_one_witness :
  spins_ok demo_confs /\ spins_ok [[-1; -1]; [-1; 1]] /\
  exists st,
    QuantumAnneal_parallel replay [1; 0.5] 3 2 1 2 demo_confs demo_nbs 1
      demo_stream = Some st /\ spins_ok (ps_confs st).
Proof.
  split; [exact demo_confs_ok|].
  destruct (spins_stay_plus_or_minus_one demo_confs demo_confs_ok)
    as (_ & Hserial & _ & _ & Hpar).
  split.
  - exact (proj2 (Hserial _ _ keep_order replay [1] 1%Z 2%Z 1 2%Z demo_nbs 0%nat
                    demo_stream _ demo_run)).
  - apply (Hpar _ replay 2%nat 2%nat [1; 0.5] 3%Z 1 2%Z demo_nbs 1%Z demo_stream
             demo_confs_shape demo_nbs_shape); [lia|lia|lra].
Defined.

Lemma replay_at_alike (stream : list Z) :
  answers_alike (fun c n => c = skipn n stream)
    (fun c (_ : unit) => replay c) (fun n _ => replay_at stream n).
Proof.
  intros c n _ ->. unfold replay, replay_at; simpl. clear.
  revert n; induction stream as [|x stream IH]; intros [|n]; simpl; auto.
Qed.

Lemma keep_order_alike : answers_alike eq keep_order keep_order.
Proof. intros g1 g2 l ->. auto. Qed.

Lemma serial_result_determined_by_both_generators_witness :
  option_map st_confs
    (QuantumAnneal keep_order (replay_at demo_stream) [1] 1 2 1 2 demo_confs
       demo_nbs 0%nat 0%nat)
  = Some [[-1; -1]; [-1; 1]].
Proof.
  rewrite <- (serial_result_determined_by_both_generators
                keep_order keep_order replay (replay_at demo_stream)
                eq (fun c n => c = skipn n demo_stream)
                [1] 1 2 1 2 demo_confs demo_nbs 0%nat 0%nat demo_stream 0%nat
                keep_order_alike (replay_at_alike demo_stream) eq_refl eq_refl).
  now rewrite demo_run.
Defined.

(** * Further properties of the two entry points *)

(** ** A call changes signs only *)

Lemma sign_of_trans (u v w : R) : sign_of u v -> sign_of v w -> sign_of u w.
Proof. unfold sign_of. intros [-> | ->] [-> | ->]; auto. left. ring. Qed.

Lemma Forall2_same {A : Type} (R : A -> A -> Prop) (a : list A) :
  (forall x, R x x) -> Forall2 R a a.
Proof. intros HR. induction a; constructor; auto. Qed.

Lemma Forall2_chain {A : Type} (R : A -> A -> Prop) (a b c : list A) :
  (forall x y z, R x y -> R y z -> R x z) ->
  Forall2 R a b -> Forall2 R b c -> Forall2 R a c.
Proof.
  intros HR Hab. revert c. induction Hab as [|x y a b Hxy Hab IH]; intros c Hbc.
  - inversion Hbc. constructor.
  - inversion Hbc as [|y' z b' c' Hyz Hbc']; subst. constructor; eauto.
Qed.

Lemma Forall2_replace_nth {A : Type} (R : A -> A -> Prop) (a : list A) (n : nat)
  (x v : A) :
  (forall y, R y y) -> nth_error a n = Some x -> R x v ->
  Forall2 R a (replace_nth a n v).
Proof.
  intros HR. revert n. induction a as [|y a IH]; intros [|n] Hn Hv; simpl in *;
    try discriminate.
  - injection Hn as ->. constructor; [exact Hv|]. now apply Forall2_same.
  - constructor; auto.
Qed.

Lemma signs_only_same (a : conf) : signs_only a a.
Proof.
  apply Forall2_same. intros row. apply Forall2_same. intros v. now left.
Qed.

Lemma signs_only_chain (a b c : conf) :
  signs_only a b -> signs_only b c -> signs_only a c.
Proof.
  apply Forall2_chain. intros x y z. apply Forall2_chain. exact sign_of_trans.
Qed.

Lemma flip_signs_only (confs confs' : conf) (i j : Z) :
  flip confs i j = Some confs' -> signs_only confs confs'.
Proof.
  unfold flip, set2, get2, store. intros H.
  apply bind_Some in H as (v & Hv & H).
  apply bind_Some in Hv as (row & Hrow & Hv).
  rewrite Hrow in H; simpl in H. rewrite Hv in H; simpl in H.
  injection H as <-.
  apply index_Some in Hrow as [_ Hrow]. apply index_Some in Hv as [_ Hv].
  apply Forall2_replace_nth with (x := row); [|exact Hrow|].
  - intros y. apply Forall2_same. intros w. now left.
  - apply Forall2_replace_nth with (x := v); [|exact Hv|].
    + intros w. now left.
    + right. ring.
Qed.

Lemma reachable_signs_only (confs0 confs : conf) :
  reachable confs0 confs -> signs_only confs0 confs.
Proof.
  intros Hr.
  induction Hr as [| G C crand nbs slices temp jperp islice st st' sidx _ IH Hb
                   | C crand nbs slices temp jperp islice st st' sidx _ IH Hb].
  - apply signs_only_same.
  - destruct (spin_body_confs _ _ _ _ _ _ _ _ _ Hb) as [-> | Hflip]; [exact IH|].
    eauto using signs_only_chain, flip_signs_only.
  - destruct (par_spin_body_confs _ _ _ _ _ _ _ _ _ Hb) as [-> | Hflip]; [exact IH|].
    eauto using signs_only_chain, flip_signs_only.
Qed.

Lemma signs_only_shape (a b : conf) :
  signs_only a b -> map (@length R) b = map (@length R) a.
Proof.
  induction 1 as [|x y a b Hxy Hab IH]; simpl; [reflexivity|].
  f_equal; [|exact IH]. symmetry. exact (Forall2_length Hxy).
Qed.

(** X1: whatever the arguments, a call of either entry point that returns
    leaves in every entry of the configuration the value it held on entry or
    its opposite; the array keeps its number of rows and the length of
    every row. *)
Theorem call_changes_signs_only :
  (forall (G C : Type) (permutation : G -> list Z -> list Z * G)
          (crand : C -> Z * C) (sched : list R) (mcsteps slices : Z) (temp : R)
          (nspins : Z) (confs : conf) (nbs : nbtable) (rng : G) (c : C)
          (st : qa_state G C),
     QuantumAnneal permutation crand sched mcsteps slices temp nspins confs nbs rng c
       = Some st ->
     signs_only confs (st_confs st) /\
     map (@length R) (st_confs st) = map (@length R) confs) /\
  (forall (C : Type) (crand : C -> Z * C) (sched : list R) (mcsteps slices : Z)
          (temp : R) (nspins : Z) (confs : conf) (nbs : nbtable) (nthreads : Z)
          (c : C) (st : par_state C),
     QuantumAnneal_parallel crand sched mcsteps slices temp nspins confs nbs
       nthreads c = Some st ->
     signs_only confs (ps_confs st) /\
     map (@length R) (ps_confs st) = map (@length R) confs).
Proof.
  split.
  - intros G C permutation crand sched mcsteps slices temp nspins confs nbs rng c
      st H.
    apply QuantumAnneal_reachable, reachable_signs_only in H.
    split; [exact H|now apply signs_only_shape].
  - intros C crand sched mcsteps slices temp nspins confs nbs nthreads c st H.
    apply QuantumAnneal_parallel_reachable, reachable_signs_only in H.
    split; [exact H|now apply signs_only_shape].
Qed.

Lemma call_changes_signs_only_witness :
  signs_only demo_confs [[-1; -1]; [-1; 1]] /\
  signs_only demo_confs [[-1; -1]; [1; 1]].
Proof.
  destruct call_changes_signs_only as [Hs Hp]. split.
  - exact (proj1 (Hs _ _ keep_order replay [1] 1%Z 2%Z 1 2%Z demo_confs demo_nbs
                    0%nat demo_stream _ demo_run)).
  - exact (proj1 (Hp _ replay [1] 1%Z 2%Z 1 2%Z demo_confs demo_nbs 1%Z
                    demo_stream _ demo_par_run)).
Defined.

(** ** What a sweep leaves alone *)

Lemma for_each_invariant_in {S A : Type} (P : S -> Prop) (body : S -> A -> option S)
  (l : list A) :
  (forall s x s', In x l -> P s -> body s x = Some s' -> P s') ->
  forall s s', P s -> for_each body s l = Some s' -> P s'.
Proof.
  induction l as [|x l IH]; simpl; intros Hbody s s' Hs H.
  - injection H as <-; exact Hs.
  - apply bind_Some in H as (s1 & H1 & H2).
    apply IH with (s := s1); eauto.
Qed.

Lemma in_xrange (n x : Z) : In x (xrange n) <-> (0 <= x < n)%Z.
Proof.
  unfold xrange. rewrite in_map_iff. split.
  - intros (k & <- & Hk). apply in_seq in Hk. lia.
  - intros Hx. exists (Z.to_nat x). split; [lia|]. apply in_seq. lia.
Qed.

Lemma index_store_same {A : Type} (a a' : list A) (i : Z) (v : A) :
  store a i v = Some a' -> index a' i = Some v.
Proof.
  unfold store. intros H. apply bind_Some in H as (x & Hx & [= <-]).
  apply index_Some in Hx as [Hi _]. unfold index.
  destruct (Z.ltb_spec i 0) as [|_]; [lia|].
  rewrite nth_error_replace_nth by lia. now rewrite Nat.eqb_refl.
Qed.

Lemma flip_get2_other (confs confs' : conf) (i j i' j' : Z) :
  flip confs i j = Some confs' -> i' <> i \/ j' <> j ->
  get2 confs' i' j' = get2 confs i' j'.
Proof.
  unfold flip, set2. intros H Hne.
  apply bind_Some in H as (v & _ & H).
  apply bind_Some in H as (row & Hrow & H).
  apply bind_Some in H as (row' & Hrow' & H).
  unfold get2. destruct (Z.eq_dec i' i) as [->|Hi].
  - rewrite (index_store_same _ _ _ _ H), Hrow; simpl.
    destruct Hne as [Hne|Hne]; [contradiction|].
    exact (index_store_other _ _ _ _ _ Hrow' Hne).
  - now rewrite (index_store_other _ _ _ _ _ H Hi).
Qed.

Lemma spin_body_other_entries {G C : Type} (crand : C -> Z * C) (nbs : nbtable)
  (slices : Z) (temp jperp : R) (islice : Z) (st st' : qa_state G C)
  (sidx i j : Z) :
  spin_body crand nbs slices temp jperp islice st sidx = Some st' ->
  i <> sidx \/ j <> islice ->
  get2 (st_confs st') i j = get2 (st_confs st) i j.
Proof.
  intros Hb Hne.
  destruct (spin_body_confs _ _ _ _ _ _ _ _ _ Hb) as [-> | Hflip]; [reflexivity|].
  exact (flip_get2_other _ _ _ _ _ _ Hflip Hne).
Qed.

Lemma par_spin_body_other_entries {C : Type} (crand : C -> Z * C) (nbs : nbtable)
  (slices : Z) (temp jperp : R) (islice : Z) (st st' : par_state C)
  (sidx i j : Z) :
  par_spin_body crand nbs slices temp jperp islice st sidx = Some st' ->
  i <> sidx \/ j <> islice ->
  get2 (ps_confs st') i j = get2 (ps_confs st) i j.
Proof.
  intros Hb Hne.
  destruct (par_spin_body_confs _ _ _ _ _ _ _ _ _ Hb) as [-> | Hflip]; [reflexivity|].
  exact (flip_get2_other _ _ _ _ _ _ Hflip Hne).
Qed.

(** X2: a spin update of the serial sweep that returns changes no entry
    of the configuration other than [confs[sidx, islice]], which it keeps or
    multiplies by -1; the sweep of a slice changes no entry of another
    slice. *)
Theorem serial_update_touches_one_entry {G C : Type} (crand : C -> Z * C)
  (nbs : nbtable) (slices : Z) (temp jperp : R) (islice : Z)
  (st st' : qa_state G C) :
  (forall sidx,
     spin_body crand nbs slices temp jperp islice st sidx = Some st' ->
     (forall i j, i <> sidx \/ j <> islice ->
                  get2 (st_confs st') i j = get2 (st_confs st) i j) /\
     exists v, get2 (st_confs st) sidx islice = Some v /\
               (get2 (st_confs st') sidx islice = Some v \/
                get2 (st_confs st') sidx islice = Some (v * -1))) /\
  (slice_body crand nbs slices temp jperp st islice = Some st' ->
   forall i j, j <> islice -> get2 (st_confs st') i j = get2 (st_confs st) i j).
Proof.
  split.
  - intros sidx Hb. split.
    + intros i j. now apply spin_body_other_entries with (1 := Hb).
    + pose proof (spin_body_ediff _ _ _ _ _ _ _ _ _ Hb) as He.
      destruct (energy_diff_reads_current _ _ _ _ _ _ _ _ He) as [v Hv].
      exists v. split; [exact Hv|].
      destruct (spin_body_confs _ _ _ _ _ _ _ _ _ Hb) as [-> | Hflip]; [now left|].
      right. exact (flip_get2_same _ _ _ _ _ Hv Hflip).
  - unfold slice_body. intros H i j Hj.
    apply bind_Some in H as (st1 & Hloop & [= <-]). simpl.
    revert Hloop.
    apply for_each_invariant
      with (P := fun s : qa_state G C => get2 (st_confs s) i j = get2 (st_confs st) i j);
      [|reflexivity].
    intros s x s' Hs Hb. rewrite <- Hs.
    apply spin_body_other_entries with (1 := Hb). now right.
Qed.

Lemma serial_update_touches_one_entry_witness :
  get2 [[-1; -1]; [1; 1]] 1 0 = get2 demo_confs 1 0 /\
  get2 [[-1; -1]; [1; 1]] 0 1 = get2 demo_confs 0 1.
Proof.
  assert (H1 : 0 < 1) by lra.
  destruct (serial_update_touches_one_entry replay demo_nbs 2 1 1 0
              (mk_qa demo_confs 0 [0; 1]%Z 1%nat demo_stream)
              (mk_qa [[-1; -1]; [1; 1]] (4 + 4 * 1) [0; 1]%Z 1%nat demo_stream))
    as [Hspin _].
  destruct (Hspin 0%Z (demo_first_spin 1 1%nat demo_stream H1)) as [Hother _].
  split; apply Hother; [left|right]; discriminate.
Defined.

Lemma slice_body_other_slices {G C : Type} (crand : C -> Z * C) (nbs : nbtable)
  (slices : Z) (temp jperp : R) (islice : Z) (st st' : qa_state G C) (i j : Z) :
  slice_body crand nbs slices temp jperp st islice = Some st' ->
  j <> islice -> get2 (st_confs st') i j = get2 (st_confs st) i j.
Proof.
  unfold slice_body. intros H Hj.
  apply bind_Some in H as (st1 & Hloop & [= <-]). simpl.
  revert Hloop.
  apply for_each_invariant
    with (P := fun s : qa_state G C => get2 (st_confs s) i j = get2 (st_confs st) i j);
    [|reflexivity].
  intros s x s' Hs Hb. rewrite <- Hs.
  apply spin_body_other_entries with (1 := Hb). now right.
Qed.

Lemma par_slice_body_outside {C : Type} (crand : C -> Z * C) (nspins : Z)
  (nbs : nbtable) (slices : Z) (temp jperp : R) (islice : Z) (st st' : par_state C)
  (i j : Z) :
  par_slice_body crand (xrange nspins) nbs slices temp jperp st islice = Some st' ->
  ~ (0 <= i < nspins)%Z \/ j <> islice ->
  get2 (ps_confs st') i j = get2 (ps_confs st) i j.
Proof.
  unfold par_slice_body. intros H Hout.
  apply bind_Some in H as (st1 & Hloop & [= <-]). simpl.
  revert Hloop.
  apply for_each_invariant_in
    with (P := fun s : par_state C => get2 (ps_confs s) i j = get2 (ps_confs st) i j);
    [|reflexivity].
  intros s x s' Hx Hs Hb. rewrite <- Hs. apply in_xrange in Hx.
  apply par_spin_body_other_entries with (1 := Hb).
  destruct Hout as [Hi|Hj]; [left; lia|now right].
Qed.

(** X3: a call that returns changes no entry of the configuration outside
    the block it is told to sweep: the serial entry point none in a column
    outside [0, slices), the parallel entry point none in a column outside
    [0, slices) or in a row outside [0, nspins). *)
Theorem entries_outside_block_untouched :
  (forall (G C : Type) (permutation : G -> list Z -> list Z * G)
          (crand : C -> Z * C) (sched : list R) (mcsteps slices : Z) (temp : R)
          (nspins : Z) (confs : conf) (nbs : nbtable) (rng : G) (c : C)
          (st : qa_state G C) (i j : Z),
     QuantumAnneal permutation crand sched mcsteps slices temp nspins confs nbs rng c
       = Some st ->
     ~ (0 <= j < slices)%Z ->
     get2 (st_confs st) i j = get2 confs i j) /\
  (forall (C : Type) (crand : C -> Z * C) (sched : list R) (mcsteps slices : Z)
          (temp : R) (nspins : Z) (confs : conf) (nbs : nbtable) (nthreads : Z)
          (c : C) (st : par_state C) (i j : Z),
     QuantumAnneal_parallel crand sched mcsteps slices temp nspins confs nbs
       nthreads c = Some st ->
     ~ (0 <= i < nspins)%Z \/ ~ (0 <= j < slices)%Z ->
     get2 (ps_confs st) i j = get2 confs i j).
Proof.
  split.
  - intros G C permutation crand sched mcsteps slices temp nspins confs nbs rng c
      st i j H Hj.
    revert H. unfold QuantumAnneal.
    apply for_each_invariant
      with (P := fun s : qa_state G C => get2 (st_confs s) i j = get2 confs i j).
    + intros s field s' Hs. unfold field_body.
      destruct (Req_dec_T _ _); [discriminate|].
      apply for_each_invariant
        with (P := fun s : qa_state G C => get2 (st_confs s) i j = get2 confs i j);
        [|exact Hs].
      clear s s' Hs. intros s step s' Hs Hstep. unfold step_body in Hstep.
      apply bind_Some in Hstep as (s1 & Hloop & Hperm).
      destruct (permutation (st_rng s1) (st_sidx_shuff s1)) as [shuff g'].
      injection Hperm as <-. simpl. revert Hloop.
      apply for_each_invariant_in
        with (P := fun s : qa_state G C => get2 (st_confs s) i j = get2 confs i j);
        [|exact Hs].
      intros t islice t' Hin Ht Hslice. rewrite <- Ht. apply in_xrange in Hin.
      apply slice_body_other_slices with (1 := Hslice). lia.
    + unfold qa_init. now destruct (permutation rng (xrange nspins)).
  - intros C crand sched mcsteps slices temp nspins confs nbs nthreads c st i j
      H Hout.
    revert H. unfold QuantumAnneal_parallel.
    destruct (nspins <? 0)%Z; [discriminate|].
    apply for_each_invariant
      with (P := fun s : par_state C => get2 (ps_confs s) i j = get2 confs i j);
      [|reflexivity].
    intros s field s' Hs. unfold par_field_body.
    destruct (Req_dec_T _ _); [discriminate|].
    apply for_each_invariant
      with (P := fun s : par_state C => get2 (ps_confs s) i j = get2 confs i j);
      [|exact Hs].
    clear s s' Hs. intros s step s' Hs. unfold par_step_body.
    apply for_each_invariant_in
      with (P := fun s : par_state C => get2 (ps_confs s) i j = get2 confs i j);
      [|exact Hs].
    intros t islice t' Hin Ht Hslice. rewrite <- Ht. apply in_xrange in Hin.
    apply par_slice_body_outside with (1 := Hslice).
    destruct Hout as [Hi|Hj]; [now left|right; lia].
Qed.

Lemma wide_step (jperp : R) (g : nat) :
  0 < jperp ->
  step_body keep_order replay demo_nbs 2 1 jperp
    (mk_qa wide_confs 0 [0; 1]%Z g demo_stream) 0 =
    Some (mk_qa [[-1; -1; 7]; [-1; 1; 7]] 0 [0; 1]%Z (S g)
            [1681692777; 1714636915]%Z).
Proof.
  intros Hj. unfold wide_confs, demo_nbs, demo_stream. run_sweep. same_state.
Qed.

Lemma wide_run :
  QuantumAnneal keep_order replay [1] 1 2 1 2 wide_confs demo_nbs 0%nat demo_stream =
    Some (mk_qa [[-1; -1; 7]; [-1; 1; 7]] 0 [0; 1]%Z 2%nat
            [1681692777; 1714636915]%Z).
Proof.
  unfold QuantumAnneal, field_body.
  change (xrange 1) with [0%Z].
  change (qa_init keep_order 2 wide_confs 0%nat demo_stream)
    with (mk_qa wide_confs 0 [0; 1]%Z 1%nat demo_stream).
  simpl for_each. destruct (Req_dec_T _ _) as [Hz|_]; [exfalso; lra|].
  now rewrite (wide_step _ _ demo_jperp_pos).
Qed.

Lemma entries_outside_block_untouched_witness :
  get2 [[-1; -1; 7]; [-1; 1; 7]] 1 2 = get2 wide_confs 1 2.
Proof.
  destruct entries_outside_block_untouched as [Hserial _].
  apply (Hserial _ _ keep_order replay [1] 1%Z 2%Z 1 2%Z wide_confs demo_nbs 0%nat
           demo_stream _ 1%Z 2%Z wide_run).
  lia.
Defined.

(** ** Counts that leave nothing to sweep *)





(** ** How often the generators are called *)

Lemma for_each_measure {S A : Type} (m : S -> nat) (k : nat)
  (body : S -> A -> option S) (l : list A) :
  (forall s x s', body s x = Some s' -> m s' = (m s + k)%nat) ->
  forall s s', for_each body s l = Some s' -> m s' = (m s + length l * k)%nat.
Proof.
  intros Hbody. induction l as [|x l IH]; simpl; intros s s' H.
  - injection H as <-. lia.
  - apply bind_Some in H as (s1 & H1 & H2).
    rewrite (IH _ _ H2), (Hbody _ _ _ H1). lia.
Qed.

Lemma for_each_measure_le {S A : Type} (m : S -> nat) (k : nat)
  (body : S -> A -> option S) (l : list A) :
  (forall s x s', body s x = Some s' -> (m s' <= m s + k)%nat) ->
  forall s s', for_each body s l = Some s' -> (m s' <= m s + length l * k)%nat.
Proof.
  intros Hbody. induction l as [|x l IH]; simpl; intros s s' H.
  - injection H as <-. lia.
  - apply bind_Some in H as (s1 & H1 & H2).
    pose proof (IH _ _ H2). pose proof (Hbody _ _ _ H1). lia.
Qed.

Lemma xrange_length (n : Z) : length (xrange n) = Z.to_nat n.
Proof. unfold xrange. now rewrite length_map, length_seq. Qed.

Lemma spin_body_rng {G C : Type} (crand : C -> Z * C) (nbs : nbtable)
  (slices : Z) (temp jperp : R) (islice : Z) (st st' : qa_state G C) (sidx : Z) :
  spin_body crand nbs slices temp jperp islice st sidx = Some st' ->
  st_rng st' = st_rng st /\ st_sidx_shuff st' = st_sidx_shuff st.
Proof.
  rewrite spin_body_accept. intros H.
  apply bind_Some in H as (ediff & _ & H). simpl in H.
  destruct (division_raises _ _); [discriminate|].
  destruct (accept _ _ _).
  - apply bind_Some in H as (confs' & _ & [= <-]). auto.
  - injection H as <-. auto.
Qed.

Lemma slice_body_rng {G C : Type} (crand : C -> Z * C) (nbs : nbtable)
  (slices : Z) (temp jperp : R) (islice : Z) (st st' : qa_state G C) :
  slice_body crand nbs slices temp jperp st islice = Some st' ->
  st_rng st' = st_rng st /\ st_sidx_shuff st' = st_sidx_shuff st.
Proof.
  unfold slice_body. intros H.
  apply bind_Some in H as (st1 & Hloop & [= <-]). simpl. revert Hloop.
  apply for_each_invariant
    with (P := fun s : qa_state G C =>
                 st_rng s = st_rng st /\ st_sidx_shuff s = st_sidx_shuff st);
    [|auto].
  intros s x s' [Hg Hs] Hb. apply spin_body_rng in Hb as [-> ->]. auto.
Qed.

Lemma counted_alike {S A B : Type} (f : S -> A -> B * S) :
  answers_alike (fun (sn : S * nat) (s : S) => fst sn = s) (counted f) f.
Proof. intros [s n] s' a; simpl. intros ->. auto. Qed.

Lemma crand_eq_alike {C : Type} (crand : C -> Z * C) :
  answers_alike eq (fun c (_ : unit) => crand c) (fun c _ => crand c).
Proof. intros c1 c2 _ ->. auto. Qed.

(** X5: a serial call that returns has asked the injected generator for
    [1 + len(sched) * max(mcsteps, 0)] permutations: one on entry and one
    after every Monte Carlo step, whatever [slices], [nspins] and the
    acceptances are.  Counting the calls changes nothing of the result. *)
Theorem permutations_requested {G C : Type}
  (permutation : G -> list Z -> list Z * G) (crand : C -> Z * C)
  (sched : list R) (mcsteps slices : Z) (temp : R) (nspins : Z) (confs : conf)
  (nbs : nbtable) (rng : G) (n : nat) (c : C) (st : qa_state (G * nat) C) :
  QuantumAnneal (counted permutation) crand sched mcsteps slices temp nspins
    confs nbs (rng, n) c = Some st ->
  snd (st_rng st) = (n + 1 + length sched * Z.to_nat mcsteps)%nat /\
  option_map st_confs
    (QuantumAnneal permutation crand sched mcsteps slices temp nspins confs nbs
       rng c) = Some (st_confs st).
Proof.
  intros H. split.
  - unfold QuantumAnneal in H.
    apply for_each_measure
      with (m := fun s : qa_state (G * nat) C => snd (st_rng s))
           (k := Z.to_nat mcsteps) in H.
    + rewrite H. unfold qa_init, counted; simpl. lia.
    + clear. intros s field s' H. unfold field_body in H.
      destruct (Req_dec_T _ _); [discriminate|].
      apply for_each_measure
        with (m := fun s : qa_state (G * nat) C => snd (st_rng s)) (k := 1%nat) in H.
      * rewrite H, xrange_length. lia.
      * clear. intros s step s' H. unfold step_body in H.
        apply bind_Some in H as (s1 & Hloop & H).
        assert (Hg : st_rng s1 = st_rng s).
        { revert Hloop.
          apply for_each_invariant
            with (P := fun t : qa_state (G * nat) C => st_rng t = st_rng s);
            [|reflexivity].
          intros t x t' Ht Hb. apply slice_body_rng in Hb as [-> _]. exact Ht. }
        unfold counted in H; simpl in H. injection H as <-. simpl.
        rewrite Hg. lia.
  - pose proof (QuantumAnneal_same (counted permutation) permutation crand crand
                  (fun (gn : G * nat) (g : G) => fst gn = g) eq
                  (counted_alike permutation) (crand_eq_alike crand)
                  nbs mcsteps slices temp sched nspins confs (rng, n) rng c c
                  eq_refl eq_refl) as Hsame.
    rewrite H in Hsame.
    destruct (QuantumAnneal permutation crand sched mcsteps slices temp nspins
                confs nbs rng c) as [st2|]; simpl in *; [|contradiction].
    destruct Hsame as [-> _]. reflexivity.
Qed.

Lemma counted_demo_step (jperp : R) (g n : nat) :
  0 < jperp ->
  step_body (counted keep_order) replay demo_nbs 2 1 jperp
    (mk_qa demo_confs 0 [0; 1]%Z (g, n) demo_stream) 0 =
    Some (mk_qa [[-1; -1]; [-1; 1]] 0 [0; 1]%Z (S g, S n)
            [1681692777; 1714636915]%Z).
Proof.
  intros Hj. unfold demo_confs, demo_nbs, demo_stream. run_sweep. same_state.
Qed.

Lemma counted_demo_run :
  QuantumAnneal (counted keep_order) replay [1] 1 2 1 2 demo_confs demo_nbs
    (0%nat, 0%nat) demo_stream =
    Some (mk_qa [[-1; -1]; [-1; 1]] 0 [0; 1]%Z (2%nat, 2%nat)
            [1681692777; 1714636915]%Z).
Proof.
  unfold QuantumAnneal, field_body.
  change (xrange 1) with [0%Z].
  change (qa_init (counted keep_order) 2 demo_confs (0%nat, 0%nat) demo_stream)
    with (mk_qa demo_confs 0 [0; 1]%Z (1%nat, 1%nat) demo_stream).
  simpl for_each. destruct (Req_dec_T _ _) as [Hz|_]; [exfalso; lra|].
  now rewrite (counted_demo_step _ _ _ demo_jperp_pos).
Qed.

Lemma permutations_requested_witness :
  snd (2%nat, 2%nat) = (0 + 1 + length [1] * Z.to_nat 1)%nat /\
  option_map st_confs
    (QuantumAnneal keep_order replay [1] 1 2 1 2 demo_confs demo_nbs 0%nat
       demo_stream) = Some [[-1; -1]; [-1; 1]].
Proof.
  exact (permutations_requested keep_order replay [1] 1 2 1 2 demo_confs demo_nbs
           0%nat 0%nat demo_stream _ counted_demo_run).
Defined.

Lemma par_spin_body_same {C1 C2 : Type} (crand1 : C1 -> Z * C1)
  (crand2 : C2 -> Z * C2) (RC : C1 -> C2 -> Prop) (nbs : nbtable) (slices : Z)
  (temp jperp : R) (islice : Z) (p1 : par_state C1) (p2 : par_state C2) (sidx : Z) :
  answers_alike RC (fun c (_ : unit) => crand1 c) (fun c _ => crand2 c) ->
  par_same_state RC p1 p2 ->
  same_result (par_same_state RC)
    (par_spin_body crand1 nbs slices temp jperp islice p1 sidx)
    (par_spin_body crand2 nbs slices temp jperp islice p2 sidx).
Proof.
  intros Halike (Hc & He & Hr). rewrite !par_spin_body_accept.
  rewrite <- Hc, <- He.
  destruct (index (ps_ediffs p1) sidx) as [e0|]; simpl; [|exact I].
  destruct (energy_diff _ _ _ _ _ _ _) as [ediff|]; simpl; [|exact I].
  destruct (store _ _ _) as [ediffs'|]; simpl; [|exact I].
  destruct (Halike _ _ tt Hr) as [Hk Hr']. simpl in Hk, Hr'. rewrite <- Hk.
  assert (Hc' : RC (if Rgt_dec ediff 0 then ps_crand p1 else snd (crand1 (ps_crand p1)))
                   (if Rgt_dec ediff 0 then ps_crand p2 else snd (crand2 (ps_crand p2))))
    by (destruct (Rgt_dec ediff 0); assumption).
  destruct (division_raises _ _); [exact I|].
  destruct (accept _ _ _).
  - destruct (flip _ _ _) as [confs'|]; simpl; [|exact I].
    repeat split; assumption.
  - simpl. repeat split; assumption.
Qed.

Lemma QuantumAnneal_parallel_same {C1 C2 : Type} (crand1 : C1 -> Z * C1)
  (crand2 : C2 -> Z * C2) (RC : C1 -> C2 -> Prop) (sched : list R)
  (mcsteps slices : Z) (temp : R) (nspins : Z) (confs : conf) (nbs : nbtable)
  (nthreads : Z) (c1 : C1) (c2 : C2) :
  answers_alike RC (fun c (_ : unit) => crand1 c) (fun c _ => crand2 c) ->
  RC c1 c2 ->
  same_result (par_same_state RC)
    (QuantumAnneal_parallel crand1 sched mcsteps slices temp nspins confs nbs
       nthreads c1)
    (QuantumAnneal_parallel crand2 sched mcsteps slices temp nspins confs nbs
       nthreads c2).
Proof.
  intros Halike Hc. unfold QuantumAnneal_parallel.
  destruct (nspins <? 0)%Z; [exact I|].
  apply for_each_same_result; [|repeat split; assumption].
  intros s1 s2 field Hs. unfold par_field_body.
  destruct (Req_dec_T _ _); [exact I|].
  apply for_each_same_result; [|exact Hs].
  clear s1 s2 Hs. intros s1 s2 step Hs. unfold par_step_body.
  apply for_each_same_result; [|exact Hs].
  clear s1 s2 Hs. intros s1 s2 islice Hs. unfold par_slice_body.
  pose proof (for_each_same_result (par_same_state RC) _ _ (xrange nspins)
                (fun t1 t2 x =>
                   par_spin_body_same crand1 crand2 RC nbs slices temp
                     (jperp_of slices temp field) islice t1 t2 x Halike)
                s1 s2 Hs) as H.
  destruct (for_each _ s1 _) as [t1|], (for_each _ s2 _) as [t2|]; simpl in *;
    try contradiction; auto.
  destruct H as (Hc1 & He1 & Hr1). repeat split; simpl; congruence.
Qed.

Lemma par_spin_body_calls {C : Type} (crand : C -> Z * C) (nbs : nbtable)
  (slices : Z) (temp jperp : R) (islice : Z) (st st' : par_state (C * nat))
  (sidx : Z) :
  par_spin_body (counted_crand crand) nbs slices temp jperp islice st sidx = Some st' ->
  (snd (ps_crand st') <= snd (ps_crand st) + 1)%nat.
Proof.
  rewrite par_spin_body_accept. intros H.
  apply bind_Some in H as (e0 & _ & H).
  apply bind_Some in H as (ediff & _ & H).
  apply bind_Some in H as (ediffs' & _ & H). simpl in H.
  destruct (division_raises _ _); [discriminate|].
  destruct (accept _ _ _).
  - apply bind_Some in H as (confs' & _ & [= <-]). simpl.
    destruct (Rgt_dec ediff 0); simpl; lia.
  - injection H as <-. simpl. destruct (Rgt_dec ediff 0); simpl; lia.
Qed.

(** X6: a parallel call that returns has called [rand()] at most once per
    spin update, that is at most
    [len(sched) * mcsteps * slices * nspins] times (each count taken as 0
    when negative).  Counting the calls changes nothing of the result. *)
Theorem rand_calls_bounded {C : Type} (crand : C -> Z * C) (sched : list R)
  (mcsteps slices : Z) (temp : R) (nspins : Z) (confs : conf) (nbs : nbtable)
  (nthreads : Z) (c : C) (n : nat) (st : par_state (C * nat)) :
  QuantumAnneal_parallel (counted_crand crand) sched mcsteps slices temp nspins
    confs nbs nthreads (c, n) = Some st ->
  (snd (ps_crand st) <=
     n + length sched * (Z.to_nat mcsteps * (Z.to_nat slices * Z.to_nat nspins)))%nat /\
  option_map ps_confs
    (QuantumAnneal_parallel crand sched mcsteps slices temp nspins confs nbs
       nthreads c) = Some (ps_confs st).
Proof.
  intros H. split.
  - unfold QuantumAnneal_parallel in H.
    destruct (nspins <? 0)%Z; [discriminate|].
    apply for_each_measure_le
      with (m := fun s : par_state (C * nat) => snd (ps_crand s))
           (k := (Z.to_nat mcsteps * (Z.to_nat slices * Z.to_nat nspins))%nat) in H;
      [exact H|].
    clear. intros s field s' H. unfold par_field_body in H.
    destruct (Req_dec_T _ _); [discriminate|].
    apply for_each_measure_le
      with (m := fun s : par_state (C * nat) => snd (ps_crand s))
           (k := (Z.to_nat slices * Z.to_nat nspins)%nat) in H;
      [now rewrite xrange_length in H|].
    clear. intros s step s' H. unfold par_step_body in H.
    apply for_each_measure_le
      with (m := fun s : par_state (C * nat) => snd (ps_crand s))
           (k := Z.to_nat nspins) in H;
      [now rewrite xrange_length in H|].
    clear. intros s islice s' H. unfold par_slice_body in H.
    apply bind_Some in H as (s1 & Hloop & [= <-]). simpl.
    apply for_each_measure_le
      with (m := fun s : par_state (C * nat) => snd (ps_crand s)) (k := 1%nat)
      in Hloop.
    + rewrite xrange_length in Hloop. lia.
    + intros t x t'. apply par_spin_body_calls.
  - assert (Halike : answers_alike (fun (cn : C * nat) (c' : C) => fst cn = c')
                       (fun cn (_ : unit) => counted_crand crand cn)
                       (fun c' _ => crand c')).
    { intros [c1 n1] c2 _; simpl. intros ->. auto. }
    pose proof (QuantumAnneal_parallel_same (counted_crand crand) crand _ sched
                  mcsteps slices temp nspins confs nbs nthreads (c, n) c
                  Halike eq_refl) as Hsame.
    rewrite H in Hsame.
    destruct (QuantumAnneal_parallel crand sched mcsteps slices temp nspins confs
                nbs nthreads c) as [st2|]; simpl in *; [|contradiction].
    destruct Hsame as [-> _]. reflexivity.
Qed.

Lemma counted_par_step (jperp : R) :
  0 < jperp ->
  par_step_body (counted_crand replay) 2 demo_nbs 2 1 jperp
    (mk_par demo_confs [0; 0] (demo_stream, 0%nat)) 0 =
    Some (mk_par [[-1; -1]; [1; 1]] [0; 0] ([1714636915%Z], 3%nat)).
Proof.
  intros Hj. unfold demo_confs, demo_nbs, demo_stream. run_sweep. same_state.
Qed.

Lemma counted_par_run :
  QuantumAnneal_parallel (counted_crand replay) [1] 1 2 1 2 demo_confs demo_nbs 1
    (demo_stream, 0%nat) =
    Some (mk_par [[-1; -1]; [1; 1]] [0; 0] ([1714636915%Z], 3%nat)).
Proof.
  unfold QuantumAnneal_parallel, par_field_body.
  change (2 <? 0)%Z with false. change (xrange 1) with [0%Z].
  change (repeat 0 (Z.to_nat 2)) with [0; 0].
  simpl for_each. destruct (Req_dec_T _ _) as [Hz|_]; [exfalso; lra|].
  now rewrite (counted_par_step _ demo_jperp_pos).
Qed.

Lemma rand_calls_bounded_witness :
  (3 <= 0 + length [1] * (Z.to_nat 1 * (Z.to_nat 2 * Z.to_nat 2)))%nat /\
  option_map ps_confs
    (QuantumAnneal_parallel replay [1] 1 2 1 2 demo_confs demo_nbs 1 demo_stream)
    = Some [[-1; -1]; [1; 1]].
Proof.
  exact (rand_calls_bounded replay [1] 1 2 1 2 demo_confs demo_nbs 1 demo_stream
           0%nat _ counted_par_run).
Defined.

(** ** The parallel sweep decides every spin on its own energy difference *)

Lemma for_each_agree {S A : Type} (I : S -> Prop) (body1 body2 : S -> A -> option S)
  (l : list A) :
  (forall s x, I s -> body1 s x = body2 s x) ->
  (forall s x s', I s -> body1 s x = Some s' -> I s') ->
  forall s, I s -> for_each body1 s l = for_each body2 s l.
Proof.
  intros Hsame Hkeep. induction l as [|x l IH]; intros s Hs; simpl; [reflexivity|].
  rewrite <- (Hsame s x Hs).
  destruct (body1 s x) as [s1|] eqn:Hb; simpl; [|reflexivity].
  apply IH. eauto.
Qed.

(** X8: the parallel entry point computes what it would compute if every
    spin were decided on its energy difference taken from zero: the slot of
    a spin in [ediffs] is 0 whenever the spin is evaluated, since every
    slice starts with all slots at 0 and visits every spin once. *)
Theorem parallel_spins_decided_on_own_energy {C : Type} (crand : C -> Z * C)
  (sched : list R) (mcsteps slices : Z) (temp : R) (nspins : Z) (confs : conf)
  (nbs : nbtable) (nthreads : Z) (c : C) :
  QuantumAnneal_parallel crand sched mcsteps slices temp nspins confs nbs nthreads c
  = QuantumAnneal_parallel_fresh crand sched mcsteps slices temp nspins confs nbs
      nthreads c.
Proof.
  unfold QuantumAnneal_parallel, QuantumAnneal_parallel_fresh.
  destruct (nspins <? 0)%Z; [reflexivity|].
  set (zeroed := fun s : par_state C => Forall (fun e => e = 0) (ps_ediffs s)).
  assert (Hslice : forall jperp s islice s',
             par_slice_body crand (xrange nspins) nbs slices temp jperp s islice
               = Some s' -> zeroed s').
  { intros jperp s islice s' H. unfold par_slice_body in H.
    apply bind_Some in H as (s1 & _ & [= <-]). unfold zeroed; simpl.
    apply Forall_forall. intros e He. apply in_map_iff in He as (_ & <- & _).
    reflexivity. }
  assert (Hstep : forall jperp s step s',
             zeroed s ->
             par_step_body crand nspins nbs slices temp jperp s step = Some s' ->
             zeroed s').
  { intros jperp s step s' Hs. unfold par_step_body.
    apply for_each_invariant with (P := zeroed); [|exact Hs].
    intros t islice t' _. apply Hslice. }
  apply for_each_agree with (I := zeroed).
  - intros s field Hs. unfold par_field_body.
    destruct (Req_dec_T _ _); [reflexivity|].
    apply for_each_agree with (I := zeroed); [| |exact Hs].
    + intros t step Ht. unfold par_step_body.
      apply for_each_agree with (I := zeroed); [| |exact Ht].
      * intros u islice Hu.
        exact (proj1 (par_slice_body_own crand nspins nbs slices temp
                        (jperp_of slices temp field) u islice Hu)).
      * intros u islice u' _. apply Hslice.
    + intros t step t'. apply Hstep.
  - intros s field s' Hs. unfold par_field_body.
    destruct (Req_dec_T _ _); [discriminate|].
    apply for_each_invariant with (P := zeroed); [|exact Hs].
    intros t step t'. apply Hstep.
  - unfold zeroed; simpl. apply Forall_forall. intros e He.
    now apply repeat_spec in He.
Qed.

(** ** Reversing every spin *)

Lemma index_map {A B : Type} (f : A -> B) (a : list A) (i : Z) :
  index (map f a) i = option_map f (index a i).
Proof. unfold index. destruct (i <? 0)%Z; [reflexivity|apply nth_error_map]. Qed.

Lemma replace_nth_map {A B : Type} (f : A -> B) (a : list A) (n : nat) (v : A) :
  replace_nth (map f a) n (f v) = map f (replace_nth a n v).
Proof.
  revert n. induction a as [|x a IH]; intros [|n]; simpl; try reflexivity.
  now rewrite IH.
Qed.

Lemma store_map {A B : Type} (f : A -> B) (a : list A) (i : Z) (v : A) :
  store (map f a) i (f v) = option_map (map f) (store a i v).
Proof.
  unfold store. rewrite index_map.
  destruct (index a i); simpl; [|reflexivity]. now rewrite replace_nth_map.
Qed.

Lemma get2_negate (confs : conf) (i j : Z) :
  get2 (negate confs) i j = option_map Ropp (get2 confs i j).
Proof.
  unfold get2, negate. rewrite index_map.
  destruct (index confs i) as [row|]; simpl; [apply index_map|reflexivity].
Qed.

Lemma flip_negate (confs : conf) (i j : Z) :
  flip (negate confs) i j = option_map negate (flip confs i j).
Proof.
  unfold flip. rewrite get2_negate.
  destruct (get2 confs i j) as [v|]; simpl; [|reflexivity].
  unfold set2, negate. rewrite index_map.
  destruct (index confs i) as [row|]; simpl; [|reflexivity].
  replace (- v * -1) with (- (v * -1)) by ring. rewrite store_map.
  destruct (store row j (v * -1)) as [row'|]; simpl; [|reflexivity].
  apply (store_map (map Ropp)).
Qed.

Lemma energy_diff_negate (confs : conf) (nbs : nbtable) (slices islice sidx : Z)
  (jperp ediff : R) :
  no_self_entries nbs ->
  energy_diff (negate confs) nbs slices islice sidx jperp ediff =
  energy_diff confs nbs slices islice sidx jperp ediff.
Proof.
  intros Hno. unfold energy_diff, neighbor_loop.
  assert (Hloop : forall l e,
             for_each (neighbor_term (negate confs) nbs islice sidx) e l =
             for_each (neighbor_term confs nbs islice sidx) e l).
  { induction l as [|si l IH]; intros e; simpl; [reflexivity|].
    assert (Hterm : neighbor_term (negate confs) nbs islice sidx e si =
                    neighbor_term confs nbs islice sidx e si).
    { unfold neighbor_term.
      destruct (index nbs sidx) as [row|] eqn:Hrow; simpl; [|reflexivity].
      destruct (index row si) as [x|] eqn:Hx; simpl; [|reflexivity].
      rewrite !get2_negate.
      destruct (get2 confs sidx islice) as [cur|]; simpl; [|reflexivity].
      apply index_Some in Hx as [_ Hx]. apply nth_error_In in Hx.
      destruct (Z.eqb_spec (int_of_float (fst x)) sidx) as [Heq|_];
        [now contradiction (Hno sidx row x Hrow Hx)|].
      destruct (get2 confs (int_of_float (fst x)) islice) as [other|]; simpl;
        [f_equal; ring|reflexivity]. }
    rewrite Hterm.
    destruct (neighbor_term confs nbs islice sidx e si); simpl; [apply IH|reflexivity]. }
  rewrite Hloop.
  destruct (for_each _ ediff _) as [e|]; simpl; [|reflexivity].
  rewrite !trotter_terms_reads, !get2_negate.
  destruct (get2 confs sidx islice) as [cur|]; simpl; [|reflexivity].
  destruct (get2 confs sidx (slices - 1)) as [l|]; simpl; [|reflexivity].
  destruct (get2 confs sidx 1) as [r|]; simpl; [f_equal; ring|reflexivity].
Qed.

Lemma spin_body_reversed {G C : Type} (crand : C -> Z * C) (nbs : nbtable)
  (slices : Z) (temp jperp : R) (islice : Z) (s1 s2 : qa_state G C) (sidx : Z) :
  no_self_entries nbs -> reversed_states s1 s2 ->
  same_result reversed_states
    (spin_body crand nbs slices temp jperp islice s1 sidx)
    (spin_body crand nbs slices temp jperp islice s2 sidx).
Proof.
  intros Hno (Hc & He & Hs & Hg & Hr). rewrite !spin_body_accept.
  rewrite Hc, He, Hs, Hg, Hr, (energy_diff_negate _ _ _ _ _ _ _ Hno), flip_negate.
  destruct (energy_diff _ _ _ _ _ _ _) as [ediff|]; simpl; [|exact I].
  destruct (division_raises _ _); [exact I|].
  destruct (accept _ _ _).
  - destruct (flip _ _ _) as [confs'|]; simpl; [|exact I].
    repeat split; reflexivity.
  - simpl. repeat split; reflexivity.
Qed.

(** X10: when no entry of the neighbour table names the spin of its own
    row (no local field), reversing every spin of the configuration given
    to the serial entry point reverses every spin of the configuration it
    returns with, the generators being in the same states: the energy
    differences, draws and acceptances of the two runs are the same. *)
Theorem reversed_spins_give_reversed_result {G C : Type}
  (permutation : G -> list Z -> list Z * G) (crand : C -> Z * C)
  (sched : list R) (mcsteps slices : Z) (temp : R) (nspins : Z) (confs : conf)
  (nbs : nbtable) (rng : G) (c : C) :
  no_self_entries nbs ->
  option_map st_confs
    (QuantumAnneal permutation crand sched mcsteps slices temp nspins
       (negate confs) nbs rng c)
  = option_map (fun st => negate (st_confs st))
    (QuantumAnneal permutation crand sched mcsteps slices temp nspins confs nbs
       rng c).
Proof.
  intros Hno.
  assert (H : same_result reversed_states
                (QuantumAnneal permutation crand sched mcsteps slices temp nspins
                   confs nbs rng c)
                (QuantumAnneal permutation crand sched mcsteps slices temp nspins
                   (negate confs) nbs rng c)).
  { unfold QuantumAnneal. apply for_each_same_result.
    - intros s1 s2 field Hs. unfold field_body.
      destruct (Req_dec_T _ _); [exact I|].
      apply for_each_same_result; [|exact Hs].
      clear s1 s2 Hs. intros s1 s2 step Hs. unfold step_body.
      assert (Hslices : forall l (t1 t2 : qa_state G C), reversed_states t1 t2 ->
                same_result reversed_states
                  (for_each (slice_body crand nbs slices temp
                               (jperp_of slices temp field)) t1 l)
                  (for_each (slice_body crand nbs slices temp
                               (jperp_of slices temp field)) t2 l)).
      { intros l. apply for_each_same_result.
        intros t1 t2 islice Ht. unfold slice_body.
        assert (Hsh : st_sidx_shuff t2 = st_sidx_shuff t1) by apply Ht.
        rewrite Hsh.
        pose proof (for_each_same_result reversed_states _ _ (st_sidx_shuff t1)
                      (fun u1 u2 x =>
                         spin_body_reversed crand nbs slices temp
                           (jperp_of slices temp field) islice u1 u2 x Hno)
                      t1 t2 Ht) as H.
        destruct (for_each _ t1 _) as [u1|], (for_each _ t2 _) as [u2|];
          simpl in *; try contradiction; auto.
        destruct H as (Hc & _ & Hs' & Hg & Hr). repeat split; assumption. }
      specialize (Hslices (xrange slices) s1 s2 Hs).
      destruct (for_each _ s1 _) as [t1|], (for_each _ s2 _) as [t2|];
        simpl in *; try contradiction; auto.
      destruct Hslices as (Hc & He & Hs' & Hg & Hr). rewrite Hg, Hs'.
      destruct (permutation (st_rng t1) (st_sidx_shuff t1)) as [shuff g'].
      repeat split; assumption.
    - unfold qa_init. destruct (permutation rng (xrange nspins)) as [shuff g'].
      repeat split; reflexivity. }
  destruct (QuantumAnneal permutation crand sched mcsteps slices temp nspins confs
              nbs rng c) as [s1|],
           (QuantumAnneal permutation crand sched mcsteps slices temp nspins
              (negate confs) nbs rng c) as [s2|];
    simpl in *; try contradiction; auto.
  destruct H as (-> & _). reflexivity.
Qed.

Lemma pair_nbs_no_self : no_self_entries pair_nbs.
Proof.
  intros s row e Hrow He.
  pose proof (index_Some _ _ _ Hrow) as [Hr _]. simpl in Hr.
  assert (Hs : s = 0%Z \/ s = 1%Z) by lia.
  destruct Hs as [-> | ->].
  - change (index pair_nbs 0) with (Some [(1, 1)]) in Hrow.
    injection Hrow as <-. destruct He as [<- | []]. simpl.
    rewrite int_of_float_IZR. discriminate.
  - change (index pair_nbs 1) with (Some [(0, 1)]) in Hrow.
    injection Hrow as <-. destruct He as [<- | []]. simpl.
    rewrite int_of_float_IZR. discriminate.
Qed.

Lemma reversed_spins_give_reversed_result_witness :
  option_map st_confs
    (QuantumAnneal keep_order replay [1] 1 2 1 2 (negate demo_confs) pair_nbs
       0%nat demo_stream)
  = option_map (fun st => negate (st_confs st))
    (QuantumAnneal keep_order replay [1] 1 2 1 2 demo_confs pair_nbs 0%nat
       demo_stream).
Proof.
  exact (reversed_spins_give_reversed_result keep_order replay [1] 1 2 1 2
           demo_confs pair_nbs 0%nat demo_stream pair_nbs_no_self).
Defined.

(** ** The acceptance test as a function of the energy difference *)



(** ** What a spin update needs *)

(** X13: a spin update of the serial sweep that returns has found the row
    of the spin in the configuration with the current slice in it, with at
    least two columns (column 1 is read as the right neighbour) and at
    least [slices] columns, [slices] being at least 1 (column [slices - 1]
    is read as the left neighbour). *)
Theorem spin_update_needs_columns {G C : Type} (crand : C -> Z * C)
  (nbs : nbtable) (slices : Z) (temp jperp : R) (islice : Z)
  (st st' : qa_state G C) (sidx : Z) :
  spin_body crand nbs slices temp jperp islice st sidx = Some st' ->
  exists row,
    index (st_confs st) sidx = Some row /\
    (0 <= islice < Z.of_nat (length row))%Z /\
    (2 <= Z.of_nat (length row))%Z /\
    (1 <= slices <= Z.of_nat (length row))%Z.
Proof.
  intros Hb. apply spin_body_ediff in Hb. unfold energy_diff in Hb.
  apply bind_Some in Hb as (e & _ & Hb). rewrite trotter_terms_reads in Hb.
  apply bind_Some in Hb as (cur & Hcur & Hb).
  apply bind_Some in Hb as (l & Hl & Hb).
  apply bind_Some in Hb as (r & Hr & _).
  unfold get2 in Hcur, Hl, Hr.
  destruct (index (st_confs st) sidx) as [row|]; simpl in *; [|discriminate].
  exists row. apply index_Some in Hcur as [Hcur _].
  apply index_Some in Hl as [Hl _]. apply index_Some in Hr as [Hr _].
  repeat split; lia.
Qed.

Lemma spin_update_needs_columns_witness :
  exists row,
    index demo_confs 0 = Some row /\
    (0 <= 0 < Z.of_nat (length row))%Z /\
    (2 <= Z.of_nat (length row))%Z /\
    (1 <= 2 <= Z.of_nat (length row))%Z.
Proof.
  assert (H1 : 0 < 1) by lra.
  exact (spin_update_needs_columns replay demo_nbs 2 1 1 0 _ _ 0%Z
           (demo_first_spin 1 1%nat demo_stream H1)).
Defined.

(** ** The visiting order *)

(** X14: with a generator whose [permutation] returns a rearrangement of
    the list it is given, the visiting order of the serial sweep is a
    rearrangement of [0, ..., nspins - 1] on entry, after every Monte Carlo
    step (which reshuffles the previous order, not the range) and on
    return: every sweep of a slice visits each of these spins once. *)
Theorem visiting_order_is_rearrangement {G C : Type}
  (permutation : G -> list Z -> list Z * G) (crand : C -> Z * C)
  (nbs : nbtable) (mcsteps slices : Z) (temp : R) (nspins : Z) :
  (forall g l, Permutation l (fst (permutation g l))) ->
  (forall confs rng c,
     Permutation (xrange nspins)
       (st_sidx_shuff (qa_init permutation nspins confs rng (c : C)))) /\
  (forall jperp (st st' : qa_state G C) step,
     Permutation (xrange nspins) (st_sidx_shuff st) ->
     step_body permutation crand nbs slices temp jperp st step = Some st' ->
     Permutation (xrange nspins) (st_sidx_shuff st')) /\
  (forall sched confs rng c st,
     QuantumAnneal permutation crand sched mcsteps slices temp nspins confs nbs
       rng c = Some st ->
     Permutation (xrange nspins) (st_sidx_shuff st) /\
     NoDup (st_sidx_shuff st) /\
     (forall x, In x (st_sidx_shuff st) <-> (0 <= x < nspins)%Z)).
Proof.
  intros Hperm.
  assert (Hinit : forall confs rng (c : C),
             Permutation (xrange nspins)
               (st_sidx_shuff (qa_init permutation nspins confs rng c))).
  { intros confs rng c. unfold qa_init. pose proof (Hperm rng (xrange nspins)) as H.
    now destruct (permutation rng (xrange nspins)). }
  assert (Hstep : forall jperp (st st' : qa_state G C) step,
             Permutation (xrange nspins) (st_sidx_shuff st) ->
             step_body permutation crand nbs slices temp jperp st step = Some st' ->
             Permutation (xrange nspins) (st_sidx_shuff st')).
  { intros jperp st st' step Hst H. unfold step_body in H.
    apply bind_Some in H as (s1 & Hloop & H).
    assert (Hs1 : st_sidx_shuff s1 = st_sidx_shuff st).
    { revert Hloop.
      apply for_each_invariant
        with (P := fun t : qa_state G C => st_sidx_shuff t = st_sidx_shuff st);
        [|reflexivity].
      intros t x t' Ht Hb. apply slice_body_rng in Hb as [_ ->]. exact Ht. }
    pose proof (Hperm (st_rng s1) (st_sidx_shuff s1)) as Hp.
    destruct (permutation (st_rng s1) (st_sidx_shuff s1)) as [shuff g'].
    injection H as <-. simpl in *. rewrite Hs1 in Hp.
    now apply Permutation_trans with (1 := Hst). }
  split; [exact Hinit|]. split; [exact Hstep|].
  intros sched confs rng c st H.
  assert (Hfinal : Permutation (xrange nspins) (st_sidx_shuff st)).
  { revert H. unfold QuantumAnneal.
    apply for_each_invariant
      with (P := fun t : qa_state G C =>
                   Permutation (xrange nspins) (st_sidx_shuff t)); [|apply Hinit].
    intros s field s' Hs. unfold field_body.
    destruct (Req_dec_T _ _); [discriminate|].
    apply for_each_invariant
      with (P := fun t : qa_state G C =>
                   Permutation (xrange nspins) (st_sidx_shuff t)); [|exact Hs].
    intros t step t'. apply Hstep. }
  split; [exact Hfinal|]. split.
  - apply Permutation_NoDup with (1 := Hfinal). apply xrange_NoDup.
  - intros x. rewrite <- in_xrange. split.
    + apply Permutation_in. now apply Permutation_sym.
    + now apply Permutation_in.
Qed.

Lemma keep_order_rearranges (g : nat) (l : list Z) :
  Permutation l (fst (keep_order g l)).
Proof. apply Permutation_refl. Qed.

Lemma visiting_order_is_rearrangement_witness :
  Permutation (xrange 2) [0; 1]%Z /\ NoDup [0; 1]%Z.
Proof.
  destruct (visiting_order_is_rearrangement keep_order replay demo_nbs 1 2 1 2
              keep_order_rearranges) as (_ & _ & Hrun).
  destruct (Hrun [1] demo_confs 0%nat demo_stream _ demo_run) as (Hp & Hn & _).
  split; [exact Hp|exact Hn].
Defined.

(** ** Flipping twice *)

Lemma replace_nth_twice {A : Type} (a : list A) (n : nat) (v w : A) :
  replace_nth (replace_nth a n v) n w = replace_nth a n w.
Proof.
  revert n. induction a as [|x a IH]; intros [|n]; simpl; try reflexivity.
  now rewrite IH.
Qed.

Lemma replace_nth_same {A : Type} (a : list A) (n : nat) (x : A) :
  nth_error a n = Some x -> replace_nth a n x = a.
Proof.
  revert n. induction a as [|y a IH]; intros [|n] H; simpl in *; try discriminate.
  - now injection H as ->.
  - now rewrite IH.
Qed.

(** X15: the update [confs[i, j] *= -1] undoes itself: applied to an entry
    of the array it succeeds, and applied again to the result it gives the
    array back. *)
Theorem flip_twice (confs confs' : conf) (i j : Z) :
  flip confs i j = Some confs' -> flip confs' i j = Some confs.
Proof.
  intros Hflip. pose proof Hflip as H. unfold flip in H.
  apply bind_Some in H as (v & Hv & H). unfold set2 in H.
  apply bind_Some in H as (row & Hrow & H).
  apply bind_Some in H as (row' & Hrow' & H).
  assert (Hv0 : index row j = Some v).
  { unfold get2 in Hv. now rewrite Hrow in Hv. }
  pose proof (index_Some _ _ _ Hrow) as [Hi Hrown].
  pose proof (index_Some _ _ _ Hv0) as [Hj Hvn].
  rewrite (store_defined _ _ _ Hj) in Hrow'. injection Hrow' as <-.
  rewrite (store_defined _ _ _ Hi) in H. injection H as <-.
  unfold flip. rewrite (flip_get2_same _ _ _ _ _ Hv Hflip). simpl.
  unfold set2.
  assert (Hrow2 : index (replace_nth confs (Z.to_nat i)
                           (replace_nth row (Z.to_nat j) (v * -1))) i
                  = Some (replace_nth row (Z.to_nat j) (v * -1))).
  { apply index_store_same with (a := confs). now apply store_defined. }
  rewrite Hrow2. simpl.
  rewrite store_defined by (rewrite replace_nth_length; exact Hj). simpl.
  rewrite store_defined by (rewrite replace_nth_length; exact Hi).
  rewrite !replace_nth_twice.
  replace (v * -1 * -1) with v by ring.
  now rewrite (replace_nth_same row _ v Hvn), (replace_nth_same confs _ row Hrown).
Qed.

Lemma flip_twice_witness :
  flip [[-1; -1]; [1; 1]] 0 0 = Some demo_confs.
Proof.
  apply (flip_twice demo_confs [[-1; -1]; [1; 1]] 0 0).
  unfold demo_confs. run_arrays. now replace (1 * -1) with (-1) by lra.
Defined.
